(** * Verification of the vorticity Maelstrom runtime and workloads

    Shallow embedding of the scheduler loop (src/lib.rs), the neighborhood
    selection and gossip emission of the broadcast, g-counter and kafka
    workloads, the base64 engine used for gossip payloads, the pending-RPC
    tables (src/rpc/lin_kv.rs, src/bin/kafka.rs) and the kafka send / poll
    handlers. *)

From Stdlib Require Import ZArith Lia ZifyNat Ascii Strings.Byte.
From stdpp Require Import base list gmap strings pretty.

(** Results of fallible Rust code: [Ok], an error value ([anyhow::Error] or
    [crate::error::Error]) carrying its message, or a panic. *)
Inductive res (A : Type) : Type :=
| Ok (a : A)
| Err (e : string)
| Panic (msg : string).
Arguments Ok {A} a.
Arguments Err {A} e.
Arguments Panic {A} msg.

(* ===================================================================== *)
(** ** The scheduler: [event_loop] of src/lib.rs *)
(* ===================================================================== *)

Module Runtime.

(** [ToEvent<IP>] of src/lib.rs: what travels on the inbound channel. *)
Inductive ToEvent (Json IP : Type) : Type :=
| TMessage (v : Json)
| TInjected (ip : IP)
| TEof.
Arguments TMessage {Json IP} v.
Arguments TInjected {Json IP} ip.
Arguments TEof {Json IP}.

(** [Event<Payload, IP>] of src/message.rs, with the message already decoded. *)
Inductive Event (M IP : Type) : Type :=
| EMessage (m : M)
| EInjected (ip : IP)
| EEof.
Arguments EMessage {M IP} m.
Arguments EInjected {M IP} ip.
Arguments EEof {M IP}.

(** What the scheduler hands work to: the workload's [step], or the
    handler at position [i] of the registry's iteration order. *)
Inductive dispatch (Json M IP : Type) : Type :=
| DStep (e : Event M IP)
| DHandler (i : nat) (v : Json).
Arguments DStep {Json M IP} e.
Arguments DHandler {Json M IP} i v.

(** How [event_loop] ends: the channel closed ([for input in msg_in_rx]
    ran out), an error propagated by [?], or a panic. *)
Inductive outcome : Type :=
| Done
| Failed (e : string)
| Panicked (msg : string).

Section EventLoop.
Context {Json M IP NodeSt H : Type}.

(** [serde_json::from_value::<Message<P>>]: decoding of a raw envelope. *)
Variable decode : Json -> option M.
(** [Node::step], threading the workload's state. *)
Variable node_step : NodeSt -> Event M IP -> res NodeSt.
(** [Handler::can_handle] and [Handler::step] of a registry entry. *)
Variable can_handle : H -> Json -> bool.
Variable handler_step : H -> Json -> res H.

(** [ToEvent::to_event]. *)
Definition to_event (t : ToEvent Json IP) : option (Event M IP) :=
  match t with
  | TMessage e => match decode e with Some m => Some (EMessage m) | None => None end
  | TInjected i => Some (EInjected i)
  | TEof => Some EEof
  end.

(** The inner [for handler in registry.values_mut()] loop: the first
    handler whose [can_handle] holds gets [step], then [break]; [?] on its
    error.  The registry is listed in its iteration order. *)
Fixpoint run_handlers (i : nat) (reg : list H) (msg : Json)
  : list (dispatch Json M IP) * res (list H) :=
  match reg with
  | [] => ([], Ok [])
  | h :: reg' =>
      if can_handle h msg then
        ([DHandler i msg],
         match handler_step h msg with
         | Ok h' => Ok (h' :: reg')
         | Err e => Err e
         | Panic p => Panic p
         end)
      else
        let '(d, r) := run_handlers (S i) reg' msg in
        (d, match r with
            | Ok reg'' => Ok (h :: reg'')
            | Err e => Err e
            | Panic p => Panic p
            end)
  end.

(** [event_loop]: the inbound channel is the list of values received
    before it closes, in arrival order. *)
Fixpoint event_loop (inputs : list (ToEvent Json IP)) (node : NodeSt)
  (reg : list H) : list (dispatch Json M IP) * outcome :=
  match inputs with
  | [] => ([], Done)
  | input :: rest =>
      match to_event input with
      | Some ev =>
          match node_step node ev with
          | Ok node' =>
              let '(d, o) := event_loop rest node' reg in (DStep ev :: d, o)
          | Err e => ([DStep ev], Failed e)
          | Panic p => ([DStep ev], Panicked p)
          end
      | None =>
          match input with
          | TMessage message =>
              let '(d, r) := run_handlers 0 reg message in
              match r with
              | Ok reg' =>
                  let '(d', o) := event_loop rest node reg' in (d ++ d', o)
              | Err e => (d, Failed e)
              | Panic p => (d, Panicked p)
              end
          | _ => ([], Panicked "Impossible position")
          end
      end
  end.
End EventLoop.

(** A concrete instance to run the loop on: raw JSON values are strings,
    a value decodes into the workload's payload when it is ["read"], the
    injected payload is the gossip timer's signal, and the workload's step
    always succeeds (as the broadcast node's does on [Eof] and [Gossip]). *)
Inductive Injected := Gossip.

Definition demo_decode (v : string) : option string :=
  if String.eqb v "read" then Some v else None.

Definition demo_step (st : nat) (e : Event string Injected) : res nat :=
  Ok (S st).

(** A registry handler that accepts only the value it was built for. *)
Definition demo_can_handle (accepts : string) (v : string) : bool :=
  String.eqb accepts v.

Definition demo_handler_step (accepts : string) (v : string) : res string :=
  Ok accepts.

Definition demo_loop (inputs : list (ToEvent string Injected)) (reg : list string) :=
  event_loop demo_decode demo_step demo_can_handle demo_handler_step inputs 0 reg.

End Runtime.

(* ===================================================================== *)
(** ** Neighborhood selection at initialization *)
(* ===================================================================== *)

Module Neighborhood.

(** The thread RNG as a stream of draws: [rng k] is the [k]-th call to
    [gen_bool(0.75)] / [random_bool(0.75)] made by the filter closure. *)

(** [BroadcastNode::from_init] (src/bin/broadcast.rs), identical in
    [GCounterNode::from_init] (src/bin/g-counter.rs) and
    [KafkaNode::from_init] (src/bin/kafka.rs):
    [init.node_ids.iter().cloned().filter(|_| rng.gen_bool(0.75)).collect()]. *)
Fixpoint from_init_neighborhood_go (node_ids : list string) (rng : nat -> bool)
    (k : nat) : list string :=
  match node_ids with
  | [] => []
  | n :: rest =>
      if rng k then n :: from_init_neighborhood_go rest rng (S k)
      else from_init_neighborhood_go rest rng (S k)
  end.

Definition from_init_neighborhood (node_ids : list string) (rng : nat -> bool)
  : list string := from_init_neighborhood_go node_ids rng 0.

(** [KafkaNode::init] (src/bin/kafka/main.rs):
    [context.neighbors().filter(|_| if cfg!(test) || node_count < 5 { true }
    else { rng.random_bool(0.75) })]; the closure only draws in the [else]
    branch. *)
Fixpoint kafka_init_neighborhood_go (cfg_test : bool) (node_count : nat)
    (nodes : list string) (rng : nat -> bool) (k : nat) : list string :=
  match nodes with
  | [] => []
  | n :: rest =>
      if cfg_test || (node_count <? 5)%nat
      then n :: kafka_init_neighborhood_go cfg_test node_count rest rng k
      else if rng k
      then n :: kafka_init_neighborhood_go cfg_test node_count rest rng (S k)
      else kafka_init_neighborhood_go cfg_test node_count rest rng (S k)
  end.

(** [nodes] is what [context.neighbors()] yields: the membership view of
    the node's [Context]. *)
Definition kafka_init_neighborhood (cfg_test : bool) (nodes : list string)
    (rng : nat -> bool) : list string :=
  let node_count := length nodes in
  kafka_init_neighborhood_go cfg_test node_count nodes rng 0.

End Neighborhood.

(* ===================================================================== *)
(** ** The base64 engine of the gossip payloads *)
(* ===================================================================== *)

Module Base64.

(** [base64::alphabet::URL_SAFE]. *)
Definition URL_SAFE : string :=
  "ABCDEFGHIJKLMNOPQRSTUVWXYZabcdefghijklmnopqrstuvwxyz0123456789-_".

Definition PAD_BYTE : ascii := "=".

(** [DecodePaddingMode] and [GeneralPurposeConfig] of the base64 crate. *)
Inductive DecodePaddingMode := Indifferent | RequireCanonical | RequireNone.

Record GeneralPurposeConfig := {
  encode_padding : bool;
  decode_padding_mode : DecodePaddingMode
}.

(** [GeneralPurposeConfig::new()]: padding on encode, canonical padding
    required on decode. *)
Definition config_new : GeneralPurposeConfig :=
  {| encode_padding := true; decode_padding_mode := RequireCanonical |}.

(** [const ENGINE: GeneralPurpose = GeneralPurpose::new(&URL_SAFE,
    GeneralPurposeConfig::new())] of the broadcast, g-counter and kafka
    binaries. *)
Definition ENGINE : GeneralPurposeConfig := config_new.

Definition encode_sym (v : N) : ascii :=
  match String.get (N.to_nat v) URL_SAFE with Some c => c | None => PAD_BYTE end.

Fixpoint index_of (c : ascii) (s : string) (i : N) : option N :=
  match s with
  | EmptyString => None
  | String c' s' => if Ascii.eqb c c' then Some i else index_of c s' (N.succ i)
  end.

Definition decode_sym (c : ascii) : option N := index_of c URL_SAFE 0.

(** Encoding: every 3 input bytes give 4 symbols of 6 bits; a final
    1- or 2-byte chunk gives 2 or 3 symbols, followed by 2 or 1 [=] when
    the engine pads. *)
Fixpoint encode_chunks (pad : bool) (bs : list N) : list ascii :=
  match bs with
  | b0 :: b1 :: b2 :: rest =>
      let n := N.lor (N.shiftl b0 16) (N.lor (N.shiftl b1 8) b2) in
      encode_sym (N.shiftr n 18) :: encode_sym (N.land (N.shiftr n 12) 63)
        :: encode_sym (N.land (N.shiftr n 6) 63) :: encode_sym (N.land n 63)
        :: encode_chunks pad rest
  | [b0; b1] =>
      let n := N.lor (N.shiftl b0 16) (N.shiftl b1 8) in
      [encode_sym (N.shiftr n 18); encode_sym (N.land (N.shiftr n 12) 63);
       encode_sym (N.land (N.shiftr n 6) 63)]
        ++ (if pad then [PAD_BYTE] else [])
  | [b0] =>
      let n := N.shiftl b0 16 in
      [encode_sym (N.shiftr n 18); encode_sym (N.land (N.shiftr n 12) 63)]
        ++ (if pad then [PAD_BYTE; PAD_BYTE] else [])
  | [] => []
  end.

(** [Engine::encode]. *)
Definition encode (cfg : GeneralPurposeConfig) (input : list Byte.byte) : string :=
  String.string_of_list_ascii (encode_chunks (encode_padding cfg) (map Byte.to_N input)).

Inductive DecodeError :=
| InvalidByte (offset : nat) (c : ascii)
| InvalidLength
| InvalidLastSymbol (offset : nat)
| InvalidPadding.

(** Symbols to bytes, 4 symbols to 3 bytes; a trailing group of 2 or 3
    symbols gives 1 or 2 bytes and its unused low bits must be zero
    ([decode_allow_trailing_bits = false]). *)
Fixpoint decode_chunks (off : nat) (ss : list N) : DecodeError + list N :=
  match ss with
  | s0 :: s1 :: s2 :: s3 :: rest =>
      let n := N.lor (N.shiftl s0 18) (N.lor (N.shiftl s1 12)
                 (N.lor (N.shiftl s2 6) s3)) in
      match decode_chunks (off + 4) rest with
      | inl e => inl e
      | inr bs => inr (N.shiftr n 16 :: N.land (N.shiftr n 8) 255 :: N.land n 255 :: bs)
      end
  | [s0; s1; s2] =>
      if negb (N.eqb (N.land s2 3) 0) then inl (InvalidLastSymbol (off + 2))
      else
        let n := N.lor (N.shiftl s0 18) (N.lor (N.shiftl s1 12) (N.shiftl s2 6)) in
        inr [N.shiftr n 16; N.land (N.shiftr n 8) 255]
  | [s0; s1] =>
      if negb (N.eqb (N.land s1 15) 0) then inl (InvalidLastSymbol (off + 1))
      else
        let n := N.lor (N.shiftl s0 18) (N.shiftl s1 12) in
        inr [N.shiftr n 16]
  | [_] => inl InvalidLength
  | [] => inr []
  end.

Fixpoint decode_syms (off : nat) (cs : list ascii) : DecodeError + list N :=
  match cs with
  | [] => inr []
  | c :: rest =>
      match decode_sym c with
      | None => inl (InvalidByte off c)
      | Some v =>
          match decode_syms (S off) rest with
          | inl e => inl e
          | inr vs => inr (v :: vs)
          end
      end
  end.

(** Length of the trailing run of [=]. *)
Fixpoint trailing_pad (cs : list ascii) : nat :=
  match cs with
  | [] => 0
  | c :: rest =>
      if Ascii.eqb c PAD_BYTE && (length (filter (fun d => negb (Ascii.eqb d PAD_BYTE)) rest) =? 0)%nat
      then S (trailing_pad rest)
      else trailing_pad rest
  end.

(** [Engine::decode]: the trailing [=] run is the padding; the padding
    mode then checks its length against the symbols before it
    ([RequireCanonical]: padding + leftover symbols must be a multiple of
    4), and the symbols are decoded. *)
Definition decode (cfg : GeneralPurposeConfig) (input : string) : DecodeError + list Byte.byte :=
  let cs := String.list_ascii_of_string input in
  let p := trailing_pad cs in
  let body := take (length cs - p) cs in
  let leftover := (length body mod 4)%nat in
  let padding_ok :=
    match decode_padding_mode cfg with
    | Indifferent => true
    | RequireCanonical => (p =? 0)%nat && (leftover =? 0)%nat || ((p + leftover) mod 4 =? 0)%nat
    | RequireNone => (p =? 0)%nat
    end in
  match decode_syms 0 body with
  | inl e => inl e
  | inr ss =>
      if (leftover =? 1)%nat then inl InvalidLength
      else if negb padding_ok then inl InvalidPadding
      else
        match decode_chunks 0 ss with
        | inl e => inl e
        | inr bs => inr (omap Byte.of_N bs)
        end
  end.

(** Symbol table check: [v] maps to a symbol of [URL_SAFE], other than
    [=], that decodes back to [v]. *)
Definition sym_ok_b (v : N) : bool :=
  match decode_sym (encode_sym v) with Some w => N.eqb w v | None => false end
  && negb (Ascii.eqb (encode_sym v) PAD_BYTE)
  && existsb (Ascii.eqb (encode_sym v)) (String.list_ascii_of_string URL_SAFE).

End Base64.

(* ===================================================================== *)
(** ** Envelopes (src/message.rs) *)
(* ===================================================================== *)

(** [Message<Payload>] with its [Body<Payload>] flattened: [msg_id] is the
    body's [id]. *)
Record Message (P : Type) := mkMessage {
  src : string;
  dst : string;
  msg_id : option nat;
  in_reply_to : option nat;
  payload : P
}.
Arguments mkMessage {P} src dst msg_id in_reply_to payload.
Arguments src {P} m.
Arguments dst {P} m.
Arguments msg_id {P} m.
Arguments in_reply_to {P} m.
Arguments payload {P} m.

(* ===================================================================== *)
(** ** Gossip emission on the [Gossip] timer signal *)
(* ===================================================================== *)

Module Gossip.

Section Gossip.
(** The CRDT document and its state vectors are those of the [yrs]
    library, an external collaborator: only the operations the gossip
    branch calls are assumed. *)
Context {Doc SV P : Type} `{EqDecision SV}.
(** [txn.encode_diff_v1(&remote_state_vector)]. *)
Variable encode_diff_v1 : Doc -> SV -> list Byte.byte.
(** [txn.state_vector()]. *)
Variable state_vector : Doc -> SV.
(** [state_vector.encode_v1()]. *)
Variable sv_encode_v1 : SV -> list Byte.byte.
(** [Payload::Gossip { diff, state_vector }] of the workload. *)
Variable gossip_payload : string -> string -> P.

(** The [InjectedPayload::Gossip] branch of [BroadcastNode::step]
    (src/bin/broadcast.rs), identical in [GCounterNode::step]
    (src/bin/g-counter.rs).  [draws j] is the value [rng.gen_bool(0.1)]
    would return in iteration [j]; the [&&] only evaluates it when the
    two state vectors are equal.  [self.known[n]] panics when [n] has no
    entry.  Messages are sent as the loop goes: the result lists the
    messages handed to [ctx.send] and how the loop ended. *)
Fixpoint gossip_go (node_id : string) (doc : Doc) (known : gmap string SV)
    (draws : nat -> bool) (j : nat) (neighborhood : list string)
    : list (Message P) * res unit :=
  match neighborhood with
  | [] => ([], Ok tt)
  | n :: rest =>
      match known !! n with
      | None => ([], Panic "HashMap index: key not present")
      | Some remote_state_vector =>
          let diff := Base64.encode Base64.ENGINE (encode_diff_v1 doc remote_state_vector) in
          let state_vector := state_vector doc in
          if bool_decide (remote_state_vector = state_vector) && negb (draws j)
          then gossip_go node_id doc known draws (S j) rest
          else
            let state_vector := Base64.encode Base64.ENGINE (sv_encode_v1 state_vector) in
            let msg := mkMessage node_id n None None (gossip_payload diff state_vector) in
            let '(sent, r) := gossip_go node_id doc known draws (S j) rest in
            (msg :: sent, r)
      end
  end.

Definition gossip (node_id : string) (doc : Doc) (known : gmap string SV)
    (neighborhood : list string) (draws : nat -> bool) : list (Message P) * res unit :=
  gossip_go node_id doc known draws 0 neighborhood.
End Gossip.

End Gossip.

(* ===================================================================== *)
(** ** Pending-RPC tables *)
(* ===================================================================== *)

Module PendingRpc.

(** [CallbackStatus] of src/rpc.rs (and its copy in src/bin/kafka.rs). *)
Inductive CallbackStatus := MoreWork | Finished.

(** [CallbackInfo<RpcPayload>]: the [dst] of [unhandled_incoming_msg], the
    keys of [sent_msgs] (the outbound [msg_id]s) and the callback, here a
    function of the reply. *)
Record CallbackInfo (R : Type) := mkCallbackInfo {
  orig_dst : string;
  sent_ids : list nat;
  callback : Message R -> res CallbackStatus
}.
Arguments mkCallbackInfo {R} orig_dst sent_ids callback.
Arguments orig_dst {R} c.
Arguments sent_ids {R} c.
Arguments callback {R} c.

(** [MessageSet::is_matching_reply]. *)
Definition is_matching_reply {R} (sent : list nat) (msg : Message R) : bool :=
  match in_reply_to msg with
  | Some id => bool_decide (id ∈ sent)
  | None => false
  end.

(** [CallbackInfo::matches]. *)
Definition matches {R} (info : CallbackInfo R) (msg : Message R) : bool :=
  is_matching_reply (sent_ids info) msg && String.eqb (orig_dst info) (dst msg).

(** [iter_mut().enumerate().find(|(_, info)| info.matches(event))]. *)
Fixpoint find_matching {R} (i : nat) (cbs : list (CallbackInfo R)) (msg : Message R)
  : option (nat * CallbackInfo R) :=
  match cbs with
  | [] => None
  | c :: rest => if matches c msg then Some (i, c) else find_matching (S i) rest msg
  end.

(** A [RefCell<A>] with its mutable-borrow flag. *)
Record RefCell (A : Type) := mkRefCell { borrowed : bool; value : A }.
Arguments mkRefCell {A} borrowed value.
Arguments borrowed {A} r.
Arguments value {A} r.

(** [RefCell::borrow_mut]: panics while a mutable borrow is alive. *)
Definition borrow_mut {A} (c : RefCell A) : res (RefCell A) :=
  if borrowed c then Panic "already borrowed: BorrowMutError"
  else Ok (mkRefCell true (value c)).

(** Dropping the [RefMut]. *)
Definition release {A} (c : RefCell A) : RefCell A := mkRefCell false (value c).

(** [LinKv::handle_reply] (src/rpc/lin_kv.rs).  The [RefMut] named
    [borrow] lives to the end of the function, so the second
    [self.callbacks.borrow_mut()] of the [Finished] arm runs while it is
    still held. *)
Definition linkv_handle_reply {R} (callbacks : RefCell (list (CallbackInfo R)))
    (event : Message R) : res (RefCell (list (CallbackInfo R))) :=
  match borrow_mut callbacks with
  | Err e => Err e
  | Panic p => Panic p
  | Ok borrow =>
      match find_matching 0 (value borrow) event with
      | None => Err "No callback registered for message"
      | Some (idx, callback_info) =>
          match callback callback_info event with
          | Err e => Err e
          | Panic p => Panic p
          | Ok Finished =>
              match borrow_mut borrow with
              | Err e => Err e
              | Panic p => Panic p
              | Ok c => Ok (release (mkRefCell true (delete idx (value c))))
              end
          | Ok MoreWork => Ok (release borrow)
          end
      end
  end.

(** [KafkaNode::handle_reply] (src/bin/kafka.rs). *)
Definition kafka_handle_reply {R} (callbacks : list (CallbackInfo R)) (input : Message R)
    : res (list (CallbackInfo R)) :=
  match find_matching 0 callbacks input with
  | None => Err "Reply to message we don't have"
  | Some (_, callback_info) =>
      match callback callback_info input with
      | Err e => Err ("Running callback caused an error: " ++ e)
      | Panic p => Panic p
      | Ok MoreWork => Ok callbacks
      | Ok Finished => Ok (filter (fun c => negb (matches c input)) callbacks)
      end
  end.

(** [LinKvPayload] of src/rpc/lin_kv.rs (JSON values as strings). *)
Inductive LinKvPayload :=
| Read (key : string)
| ReadOk (value : string)
| Write (key value : string)
| WriteOk
| Cas (key from to : string)
| CasOk.

(** The [process_callback] that [LinKv::read] stores: [Finished] on
    [read_ok] (after running the caller's callback), [WrongEvent]
    otherwise. *)
Definition read_process_callback (msg : Message LinKvPayload) : res CallbackStatus :=
  match payload msg with
  | ReadOk _ => Ok Finished
  | _ => Err "Wrong Event type"
  end.

End PendingRpc.

(* ===================================================================== *)
(** ** Kafka-log workload: [send] and [poll] *)
(* ===================================================================== *)

Module Kafka.

(** A value of the [yrs] map [logs]: a nested [YArray] of messages, or any
    other output. *)
Inductive Out (Msg : Type) :=
| YArray (l : list Msg)
| OAny (v : Msg).
Arguments YArray {Msg} l.
Arguments OAny {Msg} v.

(** The replies of the two handlers. *)
Inductive Reply (Msg : Type) :=
| SendOk (offset : N)
| PollOk (msgs : gmap string (list (N * Msg))).
Arguments SendOk {Msg} offset.
Arguments PollOk {Msg} msgs.

Section Kafka.
Context {Msg : Type}.

(** [KafkaNode::handle_send] (src/bin/kafka/main.rs, src/bin/kafka.rs):
    take the nested array of [key], or insert a fresh [ArrayPrelim] when
    there is none; [push_back] mutates that array inside the map; the
    offset is [list.len(&txn) as u64 - 1] in the same transaction. *)
Definition handle_send (logs : gmap string (Out Msg)) (key : string) (msg : Msg)
  : gmap string (Out Msg) * Reply Msg :=
  let '(logs, list) :=
    match logs !! key with
    | Some (YArray list) => (logs, list)
    | _ => (<[key := YArray []]> logs, [])
    end in
  let list := list ++ [msg] in
  let logs := <[key := YArray list]> logs in
  (logs, SendOk (N.of_nat (length list) - 1)).

(** Sends serialized through one node, with no gossip in between: the
    offsets returned, in order. *)
Fixpoint send_all (logs : gmap string (Out Msg)) (key : string) (msgs : list Msg)
  : gmap string (Out Msg) * list N :=
  match msgs with
  | [] => (logs, [])
  | m :: rest =>
      let '(logs', r) := handle_send logs key m in
      let off := match r with SendOk o => o | PollOk _ => 0%N end in
      let '(logs'', offs) := send_all logs' key rest in
      (logs'', off :: offs)
  end.

(** [KafkaNode::handle_poll]: [filter_map] over the requested offsets;
    a key whose value is not a nested array is dropped ([?] on [get] and on
    [cast::<ArrayRef>]); the rest is
    [list.iter().enumerate().skip(v as usize).map(|(i, v)| (i as u64, v))]. *)
Definition handle_poll (logs : gmap string (Out Msg)) (offsets : gmap string N)
  : Reply Msg :=
  PollOk (map_imap (fun k v =>
    match logs !! k with
    | Some (YArray list) =>
        Some (drop (N.to_nat v) (imap (fun i x => (N.of_nat i, x)) list))
    | _ => None
    end) offsets).

(** The log of [key] as [handle_send] sees it: the nested array, or the
    empty array it creates. *)
Definition log_of (logs : gmap string (Out Msg)) (key : string) : list Msg :=
  match logs !! key with
  | Some (YArray l) => l
  | _ => []
  end.
End Kafka.

End Kafka.

(* ===================================================================== *)
(** ** G-counter workload: [add] and [read] *)
(* ===================================================================== *)

Module GCounter.
Local Open Scope Z_scope.

(** [Payload] of src/bin/g-counter.rs. *)
Inductive Payload :=
| Add (delta : N)
| AddOk
| Read
| ReadOk (value : N)
| PGossip (diff state_vector : string).

(** The node's state that [add] and [read] touch: the identity from
    [init], the [yrs] document's client id and the document's [counter]
    map, with integer entries. *)
Record GCounterNode := mkGCounterNode {
  node_id : string;
  client_id : N;
  counter : gmap string Z
}.

Definition I64_MIN : Z := - 2 ^ 63.
Definition I64_MAX : Z := 2 ^ 63 - 1.
Definition U64_MAX : Z := 2 ^ 64 - 1.

(** [delta as i64] for a [u64]. *)
Definition u64_as_i64 (d : N) : Z :=
  if (d <? 2 ^ 63)%N then Z.of_N d else Z.of_N d - 2 ^ 64.

(** [i64] addition with overflow checks. *)
Definition i64_add (a b : Z) : res Z :=
  let r := a + b in
  if (I64_MIN <=? r) && (r <=? I64_MAX) then Ok r
  else Panic "attempt to add with overflow".

(** [self.doc.client_id().to_string()]. *)
Definition client_key (st : GCounterNode) : string := pretty (client_id st).

(** The [Payload::Add] branch of [GCounterNode::step]: read the entry
    (absent as [Any(0)]), store [old_val + delta as i64], reply [add_ok]. *)
Definition step_add (st : GCounterNode) (delta : N) : res (GCounterNode * Payload) :=
  let key := client_key st in
  let old_val := default 0 (counter st !! key) in
  match i64_add old_val (u64_as_i64 delta) with
  | Ok v => Ok (mkGCounterNode (node_id st) (client_id st) (<[key := v]> (counter st)), AddOk)
  | Err e => Err e
  | Panic p => Panic p
  end.

(** [.iter(&txn).map(|(_, v)| v.try_into::<u64>()
    .expect("all messages should be positive")).sum::<u64>()]. *)
Definition sum_step (acc : res Z) (kv : string * Z) : res Z :=
  match acc with
  | Ok s =>
      if kv.2 <? 0 then Panic "all messages should be positive"
      else if U64_MAX <? s + kv.2 then Panic "attempt to add with overflow"
      else Ok (s + kv.2)
  | e => e
  end.

(** The [Payload::Read] branch of [GCounterNode::step]. *)
Definition step_read (st : GCounterNode) : res (GCounterNode * Payload) :=
  match fold_left sum_step (map_to_list (counter st)) (Ok 0) with
  | Ok value => Ok (st, ReadOk (Z.to_N value))
  | Err e => Err e
  | Panic p => Panic p
  end.

End GCounter.

(* ===================================================================== *)
(** ** The broadcast node's message log (src/bin/broadcast.rs) *)
(* ===================================================================== *)

Module Broadcast.

(** The [messages] array of the node's document holds [i64] values.
    The [Payload::Broadcast] branch of [BroadcastNode::step]:
    [self.messages.push_back(&mut txn, message as i64)] ([usize] is
    64-bit). *)
Definition step_broadcast (messages : list Z) (message : N) : list Z :=
  messages ++ [GCounter.u64_as_i64 message].

(** The [Payload::Read] branch: [.iter(&txn).map(|v| v.cast::<i64>()
    .expect(..).try_into().expect("all messages should be positive"))
    .collect::<HashSet<usize>>()], in array order. *)
Fixpoint read_go (acc : gset N) (messages : list Z) : res (gset N) :=
  match messages with
  | [] => Ok acc
  | v :: rest =>
      if (v <? 0)%Z then Panic "all messages should be positive"
      else read_go ({[Z.to_N v]} ∪ acc) rest
  end.

Definition step_read (messages : list Z) : res (gset N) := read_go ∅ messages.

End Broadcast.

(* ===================================================================== *)
(** ** A broadcast cluster: anti-entropy over an unreliable network *)
(* ===================================================================== *)

Module Cluster.

(** Modelled from the spec: the replicated document of the broadcast
    workload is a [yrs] document, an external collaborator whose code is
    not in this repository.  Following the interface of the spec (section 3),
    a document is the set of operations it holds (an operation is the
    value pushed to the [messages] array, an [i64], with the node it was
    produced at), its state vector
    summarises exactly those operations, [encode_diff(remote_sv)] is the
    set of operations not covered by [remote_sv], and [apply_update] is the
    idempotent, commutative merge (union).  The base64 and v1 encodings are
    lossless round trips, so a gossip message carries the decoded values. *)
Definition Op := (string * Z)%type.
Definition StateVector := gset Op.

Definition state_vector (doc : gset Op) : StateVector := doc.
Definition encode_diff_v1 (doc : gset Op) (remote : StateVector) : gset Op := doc ∖ remote.
Definition apply_update (doc : gset Op) (update : gset Op) : gset Op := doc ∪ update.

(** A gossip message in flight, stamped with the step at which it was
    sent. *)
Record GossipMsg := mkGossipMsg {
  g_src : string;
  g_dst : string;
  sent_at : nat;
  g_diff : gset Op;
  g_state_vector : StateVector
}.

(** The fields of [BroadcastNode] the anti-entropy protocol uses. *)
Record NodeSt := mkNodeSt {
  doc : gset Op;
  known : gmap string StateVector;
  neighborhood : list string
}.

Record Cluster := mkCluster {
  nodes : gmap string NodeSt;
  network : list GossipMsg
}.

(** [Payload::Broadcast { message }]:
    [self.messages.push_back(&mut txn, message as i64)]; [message] is a
    [usize] (64-bit). *)
Definition node_broadcast (self : string) (st : NodeSt) (message : N) : NodeSt :=
  mkNodeSt (doc st ∪ {[ (self, GCounter.u64_as_i64 message) ]}) (known st) (neighborhood st).

(** The [InjectedPayload::Gossip] branch, as [Gossip.gossip_go]: a missing
    [known] entry panics and ends the round. *)
Fixpoint node_gossip_go (self : string) (t : nat) (st : NodeSt) (draws : nat -> bool)
    (j : nat) (nbrs : list string) : list GossipMsg :=
  match nbrs with
  | [] => []
  | n :: rest =>
      match known st !! n with
      | None => []
      | Some remote_state_vector =>
          let diff := encode_diff_v1 (doc st) remote_state_vector in
          let sv := state_vector (doc st) in
          if bool_decide (remote_state_vector = sv) && negb (draws j)
          then node_gossip_go self t st draws (S j) rest
          else mkGossipMsg self n t diff sv :: node_gossip_go self t st draws (S j) rest
      end
  end.

(** [Payload::Gossip { state_vector, diff }] received: record the sender's
    state vector ([reply.dst] is the sender), then apply the diff. *)
Definition node_receive (st : NodeSt) (msg : GossipMsg) : NodeSt :=
  mkNodeSt (apply_update (doc st) (g_diff msg))
           (<[g_src msg := g_state_vector msg]> (known st))
           (neighborhood st).

(** What can happen at a step: a client [broadcast] reaches a node, a
    node's gossip timer fires, the network delivers or loses the [i]-th
    message in flight. *)
Inductive ev :=
| EvBroadcast (n : string) (message : N)
| EvTick (n : string) (draws : nat -> bool)
| EvDeliver (i : nat)
| EvDrop (i : nat).

Definition step (c : Cluster) (e : ev) (t : nat) : Cluster :=
  match e with
  | EvBroadcast n m =>
      match nodes c !! n with
      | Some st => mkCluster (<[n := node_broadcast n st m]> (nodes c)) (network c)
      | None => c
      end
  | EvTick n draws =>
      match nodes c !! n with
      | Some st => mkCluster (nodes c)
                     (network c ++ node_gossip_go n t st draws 0 (neighborhood st))
      | None => c
      end
  | EvDeliver i =>
      match network c !! i with
      | Some msg =>
          let net := delete i (network c) in
          match nodes c !! g_dst msg with
          | Some st => mkCluster (<[g_dst msg := node_receive st msg]> (nodes c)) net
          | None => mkCluster (nodes c) net
          end
      | None => c
      end
  | EvDrop i => mkCluster (nodes c) (delete i (network c))
  end.

(** The state after [t] steps of the schedule [sched]. *)
Fixpoint run (init : Cluster) (sched : nat -> ev) (t : nat) : Cluster :=
  match t with
  | O => init
  | S t' => step (run init sched t') (sched t') t'
  end.

Definition doc_of (c : Cluster) (n : string) : gset Op :=
  match nodes c !! n with Some st => doc st | None => ∅ end.

(** [Payload::Read]: the [messages] of [read_ok], collected as
    [Broadcast.read_go] does over the entries of the node's array: each
    [i64] goes through [try_into::<usize>()
    .expect("all messages should be positive")], so a negative entry
    panics. *)
Definition read (c : Cluster) (n : string) : res (gset N) :=
  Broadcast.read_go ∅ (snd <$> elements (doc_of c n)).

(** The cluster right after [init]: every node starts with an empty
    document, [known] maps every node id to the default (empty) state
    vector, and the neighborhood is drawn by [from_init] with the node's
    own RNG. *)
Definition init_node (node_ids : list string) (rng : nat -> bool) : NodeSt :=
  mkNodeSt ∅ (list_to_map ((fun nid => (nid, ∅)) <$> node_ids))
    (Neighborhood.from_init_neighborhood node_ids rng).

Definition init_cluster (node_ids : list string) (rngs : string -> nat -> bool) : Cluster :=
  mkCluster (list_to_map ((fun nid => (nid, init_node node_ids (rngs nid))) <$> node_ids)) [].

(** At step [t'], the network delivers to [b] a gossip message from [a]. *)
Definition delivers (init : Cluster) (sched : nat -> ev) (t' : nat) (a b : string) : Prop :=
  exists i msg, sched t' = EvDeliver i /\ network (run init sched t') !! i = Some msg /\
    g_src msg = a /\ g_dst msg = b.

(** ... and the message was sent at step [t] or later. *)
Definition delivers_fresh (init : Cluster) (sched : nat -> ev) (t t' : nat) (a b : string) : Prop :=
  exists i msg, sched t' = EvDeliver i /\ network (run init sched t') !! i = Some msg /\
    g_src msg = a /\ g_dst msg = b /\ t <= sent_at msg.

(** The gossip graph: [a -> b] when [b] is in [a]'s neighborhood. *)
Definition edge (init : Cluster) (a b : string) : Prop :=
  exists st, nodes init !! a = Some st /\ b ∈ neighborhood st.

Inductive reach (init : Cluster) : string -> string -> Prop :=
| reach_refl a : reach init a a
| reach_step a b c : edge init a b -> reach init b c -> reach init a c.

(** The anti-entropy invariant: what a node records of a peer's state
    vector, and the state vector a message in flight carries, are covered
    by the peer's document (resp. the sender's); the diff of a message in
    flight covers, together with the receiver's document, the sender's
    state vector. *)
Definition inv (c : Cluster) : Prop :=
  (forall a st b sv, nodes c !! a = Some st -> known st !! b = Some sv ->
     sv ⊆ doc_of c b) /\
  (forall msg, msg ∈ network c -> g_state_vector msg ⊆ doc_of c (g_src msg)) /\
  (forall msg, msg ∈ network c ->
     g_state_vector msg ⊆ g_diff msg ∪ doc_of c (g_dst msg)).

(** A fair schedule for two nodes [n1] and [n2]: each gossip round of a
    node (every draw succeeding) is followed by the delivery of the two
    messages it sent. *)
Definition round_robin_sched (t : nat) : ev :=
  match t mod 6 with
  | 0 => EvTick "n1" (fun _ => true)
  | 3 => EvTick "n2" (fun _ => true)
  | _ => EvDeliver 0
  end.

(** Messages in flight sent before step [t]. *)
Definition stale (t : nat) (net : list GossipMsg) : nat :=
  length (List.filter (fun m => Nat.ltb (sent_at m) t) net).

End Cluster.

(* ===================================================================== *)
(** ** Message construction and reply matching (src/message.rs) *)
(* ===================================================================== *)

Module Envelope.

(** The part of [Context] that builds messages: the node id and the
    shared [msg_id] counter, an [AtomicUsize] (64-bit [usize]). *)
Record Context := mkContext {
  node_id : string;
  next_id : N
}.

Definition USIZE_MODULUS : N := 2 ^ 64.

(** [Context::next_msg_id]: [fetch_add(1, SeqCst)] returns the old value
    and wraps around on overflow. *)
Definition next_msg_id (ctx : Context) : N * Context :=
  (next_id ctx, mkContext (node_id ctx) ((next_id ctx + 1) mod USIZE_MODULUS)).

(** [n] successive calls of [next_msg_id] on one context: the ids handed
    out, in order. *)
Fixpoint next_msg_ids (ctx : Context) (n : nat) : list N * Context :=
  match n with
  | O => ([], ctx)
  | S n' =>
      let '(id, ctx') := next_msg_id ctx in
      let '(ids, ctx'') := next_msg_ids ctx' n' in
      (id :: ids, ctx'')
  end.

(** [Context::construct_reply]: from the request's [dst] to its [src],
    with a fresh [msg_id] and [in_reply_to] the request's [msg_id]. *)
Definition construct_reply {P} (ctx : Context) (msg : Message P) (payload : P)
  : Message P * Context :=
  let '(id, ctx') := next_msg_id ctx in
  (mkMessage (dst msg) (src msg) (Some (N.to_nat id)) (msg_id msg) payload, ctx').

(** [MessageBuilder<Payload>]. *)
Record MessageBuilder (P : Type) := mkMessageBuilder {
  b_src : string;
  b_dst : option string;
  b_id : option nat;
  b_in_reply_to : option nat;
  b_payload : option P
}.
Arguments mkMessageBuilder {P} b_src b_dst b_id b_in_reply_to b_payload.
Arguments b_src {P} _.
Arguments b_dst {P} _.
Arguments b_id {P} _.
Arguments b_in_reply_to {P} _.
Arguments b_payload {P} _.

(** [Message::builder(ctx)], i.e. [MessageBuilder::new(&ctx.node_id)]. *)
Definition builder {P} (ctx : Context) : MessageBuilder P :=
  mkMessageBuilder (node_id ctx) None None None None.

Definition builder_dst {P} (b : MessageBuilder P) (d : string) : MessageBuilder P :=
  mkMessageBuilder (b_src b) (Some d) (b_id b) (b_in_reply_to b) (b_payload b).

(** [MessageBuilder::id(ctx)]: draws the next id of [ctx]. *)
Definition builder_id {P} (b : MessageBuilder P) (ctx : Context) : MessageBuilder P * Context :=
  let '(id, ctx') := next_msg_id ctx in
  (mkMessageBuilder (b_src b) (b_dst b) (Some (N.to_nat id)) (b_in_reply_to b) (b_payload b), ctx').

Definition builder_payload {P} (b : MessageBuilder P) (p : P) : MessageBuilder P :=
  mkMessageBuilder (b_src b) (b_dst b) (b_id b) (b_in_reply_to b) (Some p).

(** [MessageBuilder::build]: [dst] is checked first (with the message
    the source gives it), then [payload]. *)
Definition build {P} (b : MessageBuilder P) : res (Message P) :=
  match b_dst b with
  | None => Err "src is required to build a message"
  | Some d =>
      match b_payload b with
      | None => Err "payload is required to build a message"
      | Some p => Ok (mkMessage (b_src b) d (b_id b) (b_in_reply_to b) p)
      end
  end.

(** [MessageSet<Payload>]: the messages by [msg_id], and how many were
    given. *)
Record MessageSet (P : Type) := mkMessageSet {
  messages : gmap nat (Message P);
  count : nat
}.
Arguments mkMessageSet {P} messages count.
Arguments messages {P} _.
Arguments count {P} _.

(** The [.map(|msg| (msg.body.id.unwrap(), msg.clone())).collect()] of
    [MessageSet::new]: a later message with the same id replaces an
    earlier one; a message without an id panics. *)
Fixpoint collect_by_id {P} (acc : gmap nat (Message P)) (msgs : list (Message P))
  : res (gmap nat (Message P)) :=
  match msgs with
  | [] => Ok acc
  | m :: rest =>
      match msg_id m with
      | None => Panic "called `Option::unwrap()` on a `None` value"
      | Some id => collect_by_id (<[id := m]> acc) rest
      end
  end.

(** [MessageSet::new]. *)
Definition messageset_new {P} (msgs : list (Message P)) : res (MessageSet P) :=
  match collect_by_id ∅ msgs with
  | Ok m => Ok (mkMessageSet m (length msgs))
  | Err e => Err e
  | Panic p => Panic p
  end.

(** [MessageSet::is_matching_reply]. *)
Definition is_matching_reply {P} (set : MessageSet P) (msg : Message P) : bool :=
  match in_reply_to msg with
  | Some id => bool_decide (is_Some (messages set !! id))
  | None => false
  end.

(** [Event::is_reply]. *)
Definition is_reply {P IP} (e : Runtime.Event (Message P) IP) : bool :=
  match e with
  | Runtime.EMessage m => bool_decide (is_Some (in_reply_to m))
  | _ => false
  end.

End Envelope.

(* ===================================================================== *)
(** ** Issuing lin-kv requests (src/rpc/lin_kv.rs) *)
(* ===================================================================== *)

Module LinKvRpc.
Import PendingRpc Envelope.

(** [LinKv::persist_callback]: build the request to [lin-kv] with a fresh
    id drawn from [ctx], wrap it in a [MessageSet], send the set, and push
    the entry ([CallbackInfo::new]: the original message's [dst], the ids
    of the set, the callback) to the end of the table under a fresh
    [borrow_mut].  The requests handed to [ctx.send_set] are returned with
    the new table and context. *)
Definition persist_callback {P} (ctx : Context) (payload : LinKvPayload)
    (orig_msg : Message P) (process_callback : Message LinKvPayload -> res CallbackStatus)
    (callbacks : RefCell (list (CallbackInfo LinKvPayload)))
  : res (RefCell (list (CallbackInfo LinKvPayload)) * Context * list (Message LinKvPayload)) :=
  let '(b, ctx') := builder_id (builder_dst (builder ctx) "lin-kv") ctx in
  match build (builder_payload b payload) with
  | Err e => Err e
  | Panic p => Panic p
  | Ok msg =>
      match messageset_new [msg] with
      | Err e => Err e
      | Panic p => Panic p
      | Ok msg_set =>
          let sent := (map_to_list (messages msg_set)).*2 in
          let callback_info :=
            mkCallbackInfo (dst orig_msg) (map_to_list (messages msg_set)).*1 process_callback in
          match borrow_mut callbacks with
          | Err e => Err e
          | Panic p => Panic p
          | Ok borrow => Ok (release (mkRefCell true (value borrow ++ [callback_info])), ctx', sent)
          end
      end
  end.

(** [<LinKv as Handler>::step], after [Event::try_from] succeeded: a
    non-reply is refused with [NotReply]; a reply carrying one of the
    [*_ok] payloads goes to [handle_reply]; one carrying a request payload
    is ignored. *)
Definition linkv_step {IP} (callbacks : RefCell (list (CallbackInfo LinKvPayload)))
    (event : Runtime.Event (Message LinKvPayload) IP)
  : res (RefCell (list (CallbackInfo LinKvPayload))) :=
  if negb (is_reply event) then Err "Not a reply"
  else
    match event with
    | Runtime.EMessage m =>
        match payload m with
        | ReadOk _ | WriteOk | CasOk => linkv_handle_reply callbacks m
        | Read _ | Write _ _ | Cas _ _ _ => Ok callbacks
        end
    | _ => Err "Wrong Event type"
    end.

End LinKvRpc.

(* ===================================================================== *)
(** ** The stdin thread (src/lib.rs) *)
(* ===================================================================== *)

Module RuntimeIo.
Import Runtime.

Section ReceiveLoop.
Context {Json IP : Type}.
(** [serde_json::from_str::<serde_json::Value>]. *)
Variable parse : string -> option Json.
(** Whether the event loop still holds the receiving end of the inbound
    channel at the [k]-th send of this thread. *)
Variable rx_alive : nat -> bool.

(** The thread of [receive_loop]: stdin lines are [Some line], or [None]
    for a read error; each line is parsed and sent as
    [ToEvent::Message]; a failed send ([Err(_)]) breaks the loop; after
    the loop, [Eof] is sent and its result ignored.  [?] on a read or
    parse error returns from the thread before the [Eof] send.  The result
    lists the values the event loop receives, and the thread's result. *)
Fixpoint receive_go (k : nat) (lines : list (option string))
  : list (ToEvent Json IP) * res unit :=
  match lines with
  | [] => (if rx_alive k then [TEof] else [], Ok tt)
  | None :: _ => ([], Err "Maestrom input from STDIN could not be deserialized")
  | Some line :: rest =>
      match parse line with
      | None => ([], Err "read input message from STDIN")
      | Some input =>
          if rx_alive k then
            let '(d, r) := receive_go (S k) rest in (TMessage input :: d, r)
          else
            (* [break]; the receiver is gone, so the [Eof] send fails too *)
            ([], Ok tt)
      end
  end.

Definition receive_loop (lines : list (option string)) : list (ToEvent Json IP) * res unit :=
  receive_go 0 lines.
End ReceiveLoop.

End RuntimeIo.

(* ===================================================================== *)
(** ** Kafka offsets, gossip and gossip receipt *)
(* ===================================================================== *)

Module KafkaNode.

(** [AdminPayload::Gossip { diff, state_vector }]. *)
Inductive AdminPayload := AGossip (diff state_vector : string).

(** [v as u64] for an [i64]. *)
Definition i64_as_u64 (v : Z) : N :=
  if (v <? 0)%Z then Z.to_N (v + 2 ^ 64) else Z.to_N v.

(** [KafkaNode::handle_commit_offsets] (src/bin/kafka/main.rs,
    src/bin/kafka.rs): [offsets.iter().for_each(|(k, v)|
    self.offsets.insert(&mut txn, k.clone(), *v as i64))]; the [offsets]
    map of the document holds [i64] values. *)
Definition handle_commit_offsets (stored : gmap string Z) (offsets : gmap string N)
  : gmap string Z :=
  foldr (fun kv acc => <[kv.1 := GCounter.u64_as_i64 kv.2]> acc) stored (map_to_list offsets).

(** [KafkaNode::handle_list_committed_offsets]: for each requested key,
    [self.offsets.get(&txn, k).unwrap_or(Out::Any(0.into()))
    .cast::<i64>().unwrap() as u64], collected into a [HashMap]. *)
Definition handle_list_committed_offsets (stored : gmap string Z) (keys : list string)
  : gmap string N :=
  list_to_map ((fun k => (k, i64_as_u64 (default 0%Z (stored !! k)))) <$> keys).

Section Gossip.
Context {Doc SV U : Type} `{EqDecision SV}.
(** The [yrs] operations [send_gossip] and [handle_admin] call. *)
Variable encode_diff_v1 : Doc -> SV -> list Byte.byte.
Variable state_vector : Doc -> SV.
Variable sv_encode_v1 : SV -> list Byte.byte.
(** [yrs::StateVector::decode_v1], [yrs::Update::decode_v1] and
    [txn.apply_update]. *)
Variable sv_decode_v1 : list Byte.byte -> option SV.
Variable update_decode_v1 : list Byte.byte -> option U.
Variable apply_update : Doc -> U -> res Doc.

(** [KafkaNode::send_gossip] of src/bin/kafka.rs: as the broadcast
    node's gossip round, but a neighborhood entry equal to the node's own
    id is skipped ([continue]) before [self.known[n]] is looked up.
    [draws j] is the draw of iteration [j]. *)
Fixpoint send_gossip_go (node_id : string) (doc : Doc) (known : gmap string SV)
    (draws : nat -> bool) (j : nat) (neighborhood : list string)
    : list (Message AdminPayload) * res unit :=
  match neighborhood with
  | [] => ([], Ok tt)
  | n :: rest =>
      if String.eqb n node_id then send_gossip_go node_id doc known draws (S j) rest
      else
        match known !! n with
        | None => ([], Panic "HashMap index: key not present")
        | Some remote_state_vector =>
            let diff := Base64.encode Base64.ENGINE (encode_diff_v1 doc remote_state_vector) in
            let state_vector := state_vector doc in
            if bool_decide (remote_state_vector = state_vector) && negb (draws j)
            then send_gossip_go node_id doc known draws (S j) rest
            else
              let state_vector := Base64.encode Base64.ENGINE (sv_encode_v1 state_vector) in
              let msg := mkMessage node_id n None None (AGossip diff state_vector) in
              let '(sent, r) := send_gossip_go node_id doc known draws (S j) rest in
              (msg :: sent, r)
        end
  end.

Definition send_gossip (node_id : string) (doc : Doc) (known : gmap string SV)
    (neighborhood : list string) (draws : nat -> bool) : list (Message AdminPayload) * res unit :=
  send_gossip_go node_id doc known draws 0 neighborhood.

(** [KafkaNode::handle_admin] (src/bin/kafka/main.rs, src/bin/kafka.rs):
    decode the state vector (base64, then [StateVector::decode_v1]), then
    the diff (base64, then [Update::decode_v1]); record the sender's state
    vector in [known]; apply the update to the document. *)
Definition handle_admin (doc : Doc) (known : gmap string SV) (input : Message AdminPayload)
  : res (Doc * gmap string SV) :=
  match payload input with
  | AGossip diff state_vector =>
      match Base64.decode Base64.ENGINE state_vector with
      | inl _ => Err "base64 decode failed"
      | inr sv_bytes =>
          match sv_decode_v1 sv_bytes with
          | None => Err "StateVector decode failed"
          | Some sv =>
              match Base64.decode Base64.ENGINE diff with
              | inl _ => Err "base64 decode failed"
              | inr diff_bytes =>
                  match update_decode_v1 diff_bytes with
                  | None => Err "Update decode failed"
                  | Some update =>
                      let known := <[src input := sv]> known in
                      match apply_update doc update with
                      | Ok doc' => Ok (doc', known)
                      | Err e => Err e
                      | Panic p => Panic p
                      end
                  end
              end
          end
      end
  end.
End Gossip.

End KafkaNode.

(* ===================================================================== *)
(** ** Unique id generation (src/bin/unique-ids.rs) *)
(* ===================================================================== *)

Module UniqueIds.

(** [Payload] of src/bin/unique-ids.rs. *)
Inductive Payload :=
| Init (node_id : string) (node_ids : list string)
| InitOk
| Generate
| GenerateOk (guid : string).

Record UniqueNode := mkUniqueNode { msg_id_ctr : N; node : string }.

Definition USIZE_MAX : N := 2 ^ 64 - 1.

(** [UniqueNode::from_init]. *)
Definition from_init (node_id : string) : UniqueNode := mkUniqueNode 1 node_id.

(** [UniqueNode::step]: on [Generate], write the reply carrying
    [format!("{}-{}", self.node, self.msg_id)], then [self.msg_id += 1]
    (which panics on overflow); the other payloads [bail!].  The result
    lists the replies written and the new state. *)
Definition step (st : UniqueNode) (input : Message Payload)
  : list (Message Payload) * res UniqueNode :=
  match payload input with
  | Generate =>
      let guid := node st +:+ "-" +:+ pretty (msg_id_ctr st) in
      let reply := mkMessage (dst input) (src input) (Some (N.to_nat (msg_id_ctr st)))
                     (msg_id input) (GenerateOk guid) in
      ([reply],
       if (msg_id_ctr st =? USIZE_MAX)%N then Panic "attempt to add with overflow"
       else Ok (mkUniqueNode (msg_id_ctr st + 1) (node st)))
  | Init _ _ => ([], Err "init should already be handled")
  | InitOk => ([], Err "Unexpected InitOk message")
  | GenerateOk _ => ([], Err "Unexpected GenerateOk message")
  end.

End UniqueIds.

(* ##################################################################### *)
(** * Properties *)
(* ##################################################################### *)

(* ===================================================================== *)
(** ** The scheduler *)
(* ===================================================================== *)

Module RuntimeFacts.
Import Runtime.

Section Loop.
Context {Json M IP NodeSt H : Type}.
Variable decode : Json -> option M.
Variable node_step : NodeSt -> Event M IP -> res NodeSt.
Variable can_handle : H -> Json -> bool.
Variable handler_step : H -> Json -> res H.

Abbreviation loop := (event_loop decode node_step can_handle handler_step).
Abbreviation handlers := (run_handlers (M:=M) (IP:=IP) can_handle handler_step).

(** [Eof] is dispatched like any other event: when the workload's step
    on it succeeds, the loop goes on with the rest of the channel. *)
Lemma event_loop_eof_continues (rest : list (ToEvent Json IP)) node node' reg :
  node_step node EEof = Ok node' ->
  loop (TEof :: rest) node reg =
    (DStep EEof :: (loop rest node' reg).1, (loop rest node' reg).2).
Proof.
  intros Hs. simpl. rewrite Hs. destruct (loop rest node' reg). reflexivity.
Qed.

(** The handler that gets a message is the first, in registry order,
    whose [can_handle] accepts it. *)
Lemma run_handlers_first (pre post : list H) h i msg :
  Forall (fun h' => can_handle h' msg = false) pre ->
  can_handle h msg = true ->
  (handlers i (pre ++ h :: post) msg).1 = [DHandler (i + length pre) msg].
Proof.
  revert i. induction pre as [|h' pre IH]; intros i Hpre Hh; simpl.
  - rewrite Hh. simpl. f_equal. f_equal. lia.
  - inversion Hpre as [|? ? Hh' Hpre']; subst. rewrite Hh'.
    specialize (IH (S i) Hpre' Hh).
    destruct (handlers (S i) (pre ++ h :: post) msg) as [d r] eqn:E.
    simpl in *. rewrite IH. f_equal. f_equal. lia.
Qed.

(** When no handler accepts the message nothing is dispatched and the
    registry is returned unchanged, without an error. *)
Lemma run_handlers_none (reg : list H) i msg :
  Forall (fun h' => can_handle h' msg = false) reg ->
  handlers i reg msg = ([], Ok reg).
Proof.
  revert i. induction reg as [|h reg IH]; intros i Hreg; simpl; [reflexivity|].
  inversion Hreg as [|? ? Hh Hreg']; subst. rewrite Hh, (IH (S i) Hreg').
  reflexivity.
Qed.

(** A message that does not decode and that no handler accepts is
    skipped: the loop continues with the rest of the channel. *)
Lemma event_loop_unhandled_skipped (v : Json) rest node reg :
  decode v = None ->
  Forall (fun h' => can_handle h' v = false) reg ->
  loop (TMessage v :: rest) node reg = loop rest node reg.
Proof.
  intros Hd Hreg. simpl. rewrite Hd, run_handlers_none by assumption.
  simpl. destruct (loop rest node reg). reflexivity.
Qed.
End Loop.

(** C1: after [Eof] the scheduler keeps dispatching: a gossip tick that
    arrives on the inbound channel after [Eof] is handed to the workload's
    [step], and the loop only ends when the channel closes. *)
Theorem eof_does_not_end_event_loop :
  demo_loop [TEof; TInjected Gossip] [] =
    ([DStep EEof; DStep (EInjected Gossip)], Done).
Proof. reflexivity. Qed.

(** C2: a message that fails to decode into the workload's payload and
    that no registered handler accepts is dropped silently: nothing is
    dispatched, no [NoHandler] error is raised, and the loop goes on to the
    next event. *)
Theorem unhandled_message_dropped_silently :
  demo_loop [TMessage "cas_ok"; TInjected Gossip] ["read_ok"] =
    ([DStep (EInjected Gossip)], Done).
Proof. reflexivity. Qed.

End RuntimeFacts.

(* ===================================================================== *)
(** ** Neighborhood selection *)
(* ===================================================================== *)

Module NeighborhoodFacts.
Import Neighborhood.

Lemma from_init_go_sublist (ids : list string) rng k :
  sublist (from_init_neighborhood_go ids rng k) ids.
Proof.
  revert k. induction ids as [|n ids IH]; intros k; simpl; [done|].
  destruct (rng k).
  - by apply sublist_skip.
  - by apply sublist_cons.
Qed.

Lemma from_init_go_keeps (ids : list string) rng k j n :
  ids !! j = Some n -> rng (k + j) = true -> n ∈ from_init_neighborhood_go ids rng k.
Proof.
  revert k j. induction ids as [|m ids IH]; intros k j Hj Hr; [done|].
  destruct j as [|j]; simpl in *.
  - injection Hj as ->. rewrite Nat.add_0_r in Hr. rewrite Hr. set_solver.
  - rewrite <- Nat.add_succ_comm in Hr.
    destruct (rng k); [apply elem_of_cons; right|]; eapply IH; eauto.
Qed.

Lemma from_init_go_drawn (ids : list string) rng k n :
  n ∈ from_init_neighborhood_go ids rng k ->
  exists j, ids !! j = Some n /\ rng (k + j) = true.
Proof.
  revert k. induction ids as [|m ids IH]; intros k Hn; simpl in Hn; [set_solver|].
  destruct (rng k) eqn:Hr.
  - apply elem_of_cons in Hn as [->|Hn].
    + exists 0. rewrite Nat.add_0_r. auto.
    + destruct (IH (S k) Hn) as (j & Hj & Hrj). exists (S j).
      rewrite <- Nat.add_succ_comm. auto.
  - destruct (IH (S k) Hn) as (j & Hj & Hrj). exists (S j).
    rewrite <- Nat.add_succ_comm. auto.
Qed.

Lemma kafka_init_go_floor (cfg_test : bool) count (nodes : list string) rng k :
  (cfg_test = true \/ count < 5) ->
  kafka_init_neighborhood_go cfg_test count nodes rng k = nodes.
Proof.
  intros Hf. induction nodes as [|n nodes IH]; simpl; [done|].
  assert (Hc : (cfg_test || (count <? 5)) = true).
  { destruct Hf as [->|Hlt]; [done|]. apply orb_true_iff. right. by apply Nat.ltb_lt. }
  rewrite Hc, IH. done.
Qed.

(** C3 (counterexample): with the two-node cluster [n1; n2], node [n1]
    keeps itself in its neighborhood when its draw for [n1] succeeds, and
    leaves [n2] out when its draw for [n2] fails, although the cluster has
    fewer than 5 nodes. *)
Lemma neighborhood_keeps_self_and_drops_peer :
  "n1" ∈ from_init_neighborhood ["n1"; "n2"] (fun _ => true) /\
  from_init_neighborhood ["n1"; "n2"] (fun k => Nat.eqb k 0) = ["n1"] /\
  "n2" ∉ from_init_neighborhood ["n1"; "n2"] (fun k => Nat.eqb k 0).
Proof.
  vm_compute. split; [set_solver|]. split; [reflexivity|]. set_solver.
Qed.

(** C3 (as the code does it): the neighborhood is a sublist of the full
    [node_ids] list (the node itself is not removed), holding exactly the
    ids whose own draw succeeded; the kafka-log variant keeps its whole
    membership view without drawing when the view has fewer than 5 nodes
    or under [cfg!(test)]. *)
Theorem neighborhood_selection (node_ids nodes : list string) (rng : nat -> bool)
    (cfg_test : bool) :
  sublist (from_init_neighborhood node_ids rng) node_ids /\
  (forall j n, node_ids !! j = Some n -> rng j = true ->
     n ∈ from_init_neighborhood node_ids rng) /\
  (forall n, n ∈ from_init_neighborhood node_ids rng ->
     exists j, node_ids !! j = Some n /\ rng j = true) /\
  ((cfg_test = true \/ length nodes < 5) ->
     kafka_init_neighborhood cfg_test nodes rng = nodes).
Proof.
  unfold from_init_neighborhood, kafka_init_neighborhood.
  split; [apply from_init_go_sublist|].
  split; [intros j n Hj Hr; eapply from_init_go_keeps; eauto|].
  split; [intros n Hn; exact (from_init_go_drawn _ _ 0 n Hn)|].
  intros Hf. by apply kafka_init_go_floor.
Qed.

End NeighborhoodFacts.

(* ===================================================================== *)
(** ** Gossip emission *)
(* ===================================================================== *)

Module GossipFacts.
Import Gossip.

Section Facts.
Context {Doc SV P : Type} `{EqDecision SV}.
Variable encode_diff_v1 : Doc -> SV -> list Byte.byte.
Variable state_vector : Doc -> SV.
Variable sv_encode_v1 : SV -> list Byte.byte.
Variable gossip_payload : string -> string -> P.

Abbreviation go := (gossip_go encode_diff_v1 state_vector sv_encode_v1 gossip_payload).

Lemma gossip_go_spec (node_id : string) (doc : Doc) (known : gmap string SV)
    (draws : nat -> bool) (j0 : nat) (nbrs : list string) :
  (forall n, n ∈ nbrs -> is_Some (known !! n)) ->
  (go node_id doc known draws j0 nbrs).2 = Ok tt /\
  forall m, m ∈ (go node_id doc known draws j0 nbrs).1 <->
    exists j n remote, nbrs !! j = Some n /\ known !! n = Some remote /\
      (remote <> state_vector doc \/ draws (j0 + j) = true) /\
      m = mkMessage node_id n None None
            (gossip_payload (Base64.encode Base64.ENGINE (encode_diff_v1 doc remote))
               (Base64.encode Base64.ENGINE (sv_encode_v1 (state_vector doc)))).
Proof.
  revert j0. induction nbrs as [|n rest IH]; intros j0 Hk.
  - simpl. split; [done|]. intros m. split; [set_solver|].
    intros (j & n & r & Hj & _). done.
  - assert (Hn : is_Some (known !! n)) by (apply Hk; set_solver).
    destruct Hn as [remote Hr].
    assert (Hrest : forall n', n' ∈ rest -> is_Some (known !! n'))
      by (intros n' Hn'; apply Hk; set_solver).
    destruct (IH (S j0) Hrest) as [Hok Hmem].
    simpl. rewrite Hr.
    destruct (go node_id doc known draws (S j0) rest) as [sent r] eqn:E.
    simpl in Hok, Hmem.
    destruct (bool_decide (remote = state_vector doc) && negb (draws j0)) eqn:Hc.
    + (* [n] is skipped *)
      apply andb_true_iff in Hc as [Heq Hd]. apply bool_decide_eq_true in Heq.
      apply negb_true_iff in Hd.
      simpl. split; [exact Hok|]. intros m. rewrite Hmem. split.
      * intros (j & n' & r' & Hj & Hr' & Hc' & ->). exists (S j), n', r'.
        rewrite ?Nat.add_succ_r, ?Nat.add_succ_l in *. auto.
      * intros (j & n' & r' & Hj & Hr' & Hc' & ->). destruct j as [|j].
        -- simpl in Hj. injection Hj as <-. rewrite Hr in Hr'. injection Hr' as <-.
           rewrite Nat.add_0_r, Hd in Hc'. destruct Hc' as [Hc'|Hc']; [contradiction|discriminate].
        -- exists j, n', r'. rewrite ?Nat.add_succ_r, ?Nat.add_succ_l in *. auto.
    + (* the message to [n] is sent *)
      simpl. split; [exact Hok|]. intros m. rewrite elem_of_cons, Hmem. split.
      * intros [->|(j & n' & r' & Hj & Hr' & Hc' & ->)].
        -- exists 0, n, remote. rewrite Nat.add_0_r. repeat split; auto.
           destruct (draws j0) eqn:Hd; [by right|left].
           intros Heq. rewrite bool_decide_eq_true_2 in Hc by exact Heq. discriminate.
        -- exists (S j), n', r'. rewrite ?Nat.add_succ_r, ?Nat.add_succ_l in *. auto.
      * intros (j & n' & r' & Hj & Hr' & Hc' & ->). destruct j as [|j].
        -- left. simpl in Hj. injection Hj as <-. rewrite Hr in Hr'.
           injection Hr' as <-. reflexivity.
        -- right. exists j, n', r'. rewrite ?Nat.add_succ_r, ?Nat.add_succ_l in *. auto.
Qed.

(** C4: on a [Gossip] timer signal, when every neighbor has a recorded
    state vector (as [from_init] sets up), the round completes and it
    emits, to each neighbor [n] at iteration [j], exactly one gossip
    message from this node, with no [msg_id] and no [in_reply_to],
    carrying the base64 [diff] against [known[n]] and the base64 local
    state vector, if [known[n]] differs from the local state vector, or if
    they are equal and the draw [gen_bool(0.1)] of that iteration
    succeeds; otherwise [n] is skipped. *)
Theorem gossip_round_emission (node_id : string) (doc : Doc)
    (known : gmap string SV) (neighborhood : list string) (draws : nat -> bool) :
  (forall n, n ∈ neighborhood -> is_Some (known !! n)) ->
  (gossip encode_diff_v1 state_vector sv_encode_v1 gossip_payload
     node_id doc known neighborhood draws).2 = Ok tt /\
  forall m, m ∈ (gossip encode_diff_v1 state_vector sv_encode_v1 gossip_payload
                  node_id doc known neighborhood draws).1 <->
    exists j n remote, neighborhood !! j = Some n /\ known !! n = Some remote /\
      (remote <> state_vector doc \/ draws j = true) /\
      m = mkMessage node_id n None None
            (gossip_payload (Base64.encode Base64.ENGINE (encode_diff_v1 doc remote))
               (Base64.encode Base64.ENGINE (sv_encode_v1 (state_vector doc)))).
Proof.
  intros Hk. unfold gossip. apply (gossip_go_spec node_id doc known draws 0 neighborhood Hk).
Qed.
End Facts.

(** A concrete round: node [n1] knows state vector [0] for its only
    neighbor [n2], its own state vector is [1], so the message is sent. *)
Lemma gossip_round_emission_witness :
  (forall n, n ∈ ["n2"] -> is_Some ((<["n2" := 0%nat]> ∅ : gmap string nat) !! n)) /\
  ((gossip (fun (_ : nat) (_ : nat) => []) (fun d : nat => d) (fun _ => [])
      (fun diff sv => (diff, sv)) "n1" 1%nat (<["n2" := 0%nat]> ∅) ["n2"]
      (fun _ => false)).2 = Ok tt /\
   forall m, m ∈ (gossip (fun (_ : nat) (_ : nat) => []) (fun d : nat => d) (fun _ => [])
      (fun diff sv => (diff, sv)) "n1" 1%nat (<["n2" := 0%nat]> ∅) ["n2"]
      (fun _ => false)).1 <->
     exists j n remote, ["n2"] !! j = Some n /\
       (<["n2" := 0%nat]> ∅ : gmap string nat) !! n = Some remote /\
       (remote <> 1%nat \/ false = true) /\
       m = mkMessage "n1" n None None
             (Base64.encode Base64.ENGINE [], Base64.encode Base64.ENGINE [])).
Proof.
  assert (H : forall n, n ∈ ["n2"] ->
            is_Some ((<["n2" := 0%nat]> ∅ : gmap string nat) !! n)).
  { intros n Hn. rewrite list_elem_of_singleton in Hn. subst n.
    vm_compute. eexists. reflexivity. }
  split; [exact H|].
  apply (gossip_round_emission (fun (_ : nat) (_ : nat) => []) (fun d : nat => d)
           (fun _ => []) (fun diff sv => (diff, sv)) "n1" 1%nat
           (<["n2" := 0%nat]> ∅) ["n2"] (fun _ => false) H).
Defined.

End GossipFacts.

(* ===================================================================== *)
(** ** Base64 engine *)
(* ===================================================================== *)

Module Base64Facts.
Import Base64.

(** Disjoint [lor] is addition. *)
Lemma lor_add (a b k : N) : (b < 2 ^ k)%N -> N.lor (a * 2 ^ k) b = (a * 2 ^ k + b)%N.
Proof.
  intros Hb. rewrite <- N.lxor_lor, <- N.add_nocarry_lxor; [reflexivity| |];
  apply N.bits_inj_0; intros i; rewrite N.land_spec;
  (destruct (N.lt_ge_cases i k) as [Hi|Hi];
   [rewrite <- N.shiftl_mul_pow2, N.shiftl_spec_low by exact Hi; reflexivity
   |rewrite <- (N.mod_small b (2 ^ k)) by exact Hb;
    rewrite N.mod_pow2_bits_high by lia; apply Bool.andb_false_r]).
Qed.

Lemma land_mod (x : N) (k : N) : N.land x (N.ones k) = (x mod 2 ^ k)%N.
Proof. apply N.land_ones. Qed.

Ltac nsolve := zify; Z.to_euclidean_division_equations; lia.

(** Byte-level arithmetic of the three chunk shapes. *)
Lemma chunk3_arith (b0 b1 b2 : N) :
  (b0 < 256)%N -> (b1 < 256)%N -> (b2 < 256)%N ->
  let n := (b0 * 65536 + b1 * 256 + b2)%N in
  let s0 := (n / 262144)%N in let s1 := ((n / 4096) mod 64)%N in
  let s2 := ((n / 64) mod 64)%N in let s3 := (n mod 64)%N in
  (s0 < 64)%N /\ (s1 < 64)%N /\ (s2 < 64)%N /\ (s3 < 64)%N /\
  let m := (s0 * 262144 + s1 * 4096 + s2 * 64 + s3)%N in
  (m / 65536)%N = b0 /\ ((m / 256) mod 256)%N = b1 /\ (m mod 256)%N = b2.
Proof. intros; subst n s0 s1 s2 s3; repeat split; nsolve. Qed.

Lemma chunk2_arith (b0 b1 : N) :
  (b0 < 256)%N -> (b1 < 256)%N ->
  let n := (b0 * 65536 + b1 * 256)%N in
  let s0 := (n / 262144)%N in let s1 := ((n / 4096) mod 64)%N in
  let s2 := ((n / 64) mod 64)%N in
  (s0 < 64)%N /\ (s1 < 64)%N /\ (s2 < 64)%N /\ (s2 mod 4 = 0)%N /\
  let m := (s0 * 262144 + s1 * 4096 + s2 * 64)%N in
  (m / 65536)%N = b0 /\ ((m / 256) mod 256)%N = b1.
Proof. intros; subst n s0 s1 s2; repeat split; nsolve. Qed.

Lemma chunk1_arith (b0 : N) :
  (b0 < 256)%N ->
  let n := (b0 * 65536)%N in
  let s0 := (n / 262144)%N in let s1 := ((n / 4096) mod 64)%N in
  (s0 < 64)%N /\ (s1 < 64)%N /\ (s1 mod 16 = 0)%N /\
  let m := (s0 * 262144 + s1 * 4096)%N in
  (m / 65536)%N = b0.
Proof. intros; subst n s0 s1; repeat split; nsolve. Qed.

Lemma shr18 x : N.shiftr x 18 = (x / 262144)%N.
Proof. apply N.shiftr_div_pow2. Qed.
Lemma shr16 x : N.shiftr x 16 = (x / 65536)%N.
Proof. apply N.shiftr_div_pow2. Qed.
Lemma shr12 x : N.shiftr x 12 = (x / 4096)%N.
Proof. apply N.shiftr_div_pow2. Qed.
Lemma shr8 x : N.shiftr x 8 = (x / 256)%N.
Proof. apply N.shiftr_div_pow2. Qed.
Lemma shr6 x : N.shiftr x 6 = (x / 64)%N.
Proof. apply N.shiftr_div_pow2. Qed.
Lemma shl a k : N.shiftl a k = (a * 2 ^ k)%N.
Proof. apply N.shiftl_mul_pow2. Qed.
Lemma land63 x : N.land x 63 = (x mod 64)%N.
Proof. apply (land_mod x 6). Qed.
Lemma land255 x : N.land x 255 = (x mod 256)%N.
Proof. apply (land_mod x 8). Qed.
Lemma land15 x : N.land x 15 = (x mod 16)%N.
Proof. apply (land_mod x 4). Qed.
Lemma land3 x : N.land x 3 = (x mod 4)%N.
Proof. apply (land_mod x 2). Qed.

Lemma pow6 : (2 ^ 6 = 64)%N. Proof. reflexivity. Qed.
Lemma pow8 : (2 ^ 8 = 256)%N. Proof. reflexivity. Qed.
Lemma pow12 : (2 ^ 12 = 4096)%N. Proof. reflexivity. Qed.
Lemma pow16 : (2 ^ 16 = 65536)%N. Proof. reflexivity. Qed.
Lemma pow18 : (2 ^ 18 = 262144)%N. Proof. reflexivity. Qed.

Ltac pows := rewrite ?pow6, ?pow8, ?pow12, ?pow16, ?pow18.

(** The [lor]/[shiftl] packings of [encode_chunks] and [decode_chunks]
    are sums of disjoint bit fields. *)
Lemma pack3 b0 b1 b2 : (b1 < 256)%N -> (b2 < 256)%N ->
  N.lor (N.shiftl b0 16) (N.lor (N.shiftl b1 8) b2) = (b0 * 65536 + b1 * 256 + b2)%N.
Proof.
  intros. rewrite !shl, (lor_add b1 b2 8) by (pows; lia).
  rewrite (lor_add b0 _ 16) by (pows; lia). pows. lia.
Qed.

Lemma pack2 b0 b1 : (b1 < 256)%N ->
  N.lor (N.shiftl b0 16) (N.shiftl b1 8) = (b0 * 65536 + b1 * 256)%N.
Proof. intros. rewrite !shl, (lor_add b0 _ 16) by (pows; lia). pows. lia. Qed.

Lemma unpack4 s0 s1 s2 s3 : (s1 < 64)%N -> (s2 < 64)%N -> (s3 < 64)%N ->
  N.lor (N.shiftl s0 18) (N.lor (N.shiftl s1 12) (N.lor (N.shiftl s2 6) s3))
  = (s0 * 262144 + s1 * 4096 + s2 * 64 + s3)%N.
Proof.
  intros. rewrite !shl, (lor_add s2 s3 6) by (pows; lia).
  rewrite (lor_add s1 _ 12) by (pows; lia).
  rewrite (lor_add s0 _ 18) by (pows; lia). pows. lia.
Qed.

Lemma unpack3 s0 s1 s2 : (s1 < 64)%N -> (s2 < 64)%N ->
  N.lor (N.shiftl s0 18) (N.lor (N.shiftl s1 12) (N.shiftl s2 6))
  = (s0 * 262144 + s1 * 4096 + s2 * 64)%N.
Proof.
  intros. rewrite !shl, (lor_add s1 _ 12) by (pows; lia).
  rewrite (lor_add s0 _ 18) by (pows; lia). pows. lia.
Qed.

Lemma unpack2 s0 s1 : (s1 < 64)%N ->
  N.lor (N.shiftl s0 18) (N.shiftl s1 12) = (s0 * 262144 + s1 * 4096)%N.
Proof. intros. rewrite !shl, (lor_add s0 _ 18) by (pows; lia). pows. lia. Qed.

Lemma chunk3 b0 b1 b2 off rest bs :
  (b0 < 256)%N -> (b1 < 256)%N -> (b2 < 256)%N ->
  decode_chunks (off + 4) rest = inr bs ->
  let n := N.lor (N.shiftl b0 16) (N.lor (N.shiftl b1 8) b2) in
  Forall (fun v => v < 64)%N [N.shiftr n 18; N.land (N.shiftr n 12) 63;
                              N.land (N.shiftr n 6) 63; N.land n 63] /\
  decode_chunks off (N.shiftr n 18 :: N.land (N.shiftr n 12) 63
                     :: N.land (N.shiftr n 6) 63 :: N.land n 63 :: rest)
  = inr (b0 :: b1 :: b2 :: bs).
Proof.
  intros H0 H1 H2 Hr. cbv zeta. rewrite pack3 by assumption.
  pose proof (chunk3_arith b0 b1 b2 H0 H1 H2) as A. cbv zeta in A.
  destruct A as (A0 & A1 & A2 & A3 & B0 & B1 & B2).
  rewrite shr18, shr12, shr6, !land63.
  split; [repeat constructor; assumption|].
  cbn [decode_chunks]. rewrite Hr. rewrite unpack4 by assumption.
  rewrite shr16, shr8, !land255, B0, B1, B2. reflexivity.
Qed.

Lemma chunk2 b0 b1 off :
  (b0 < 256)%N -> (b1 < 256)%N ->
  let n := N.lor (N.shiftl b0 16) (N.shiftl b1 8) in
  Forall (fun v => v < 64)%N [N.shiftr n 18; N.land (N.shiftr n 12) 63;
                              N.land (N.shiftr n 6) 63] /\
  decode_chunks off [N.shiftr n 18; N.land (N.shiftr n 12) 63; N.land (N.shiftr n 6) 63]
  = inr [b0; b1].
Proof.
  intros H0 H1. cbv zeta. rewrite pack2 by assumption.
  pose proof (chunk2_arith b0 b1 H0 H1) as A. cbv zeta in A.
  destruct A as (A0 & A1 & A2 & A3 & B0 & B1).
  rewrite shr18, shr12, shr6, !land63.
  split; [repeat constructor; assumption|].
  cbn [decode_chunks]. rewrite land3, A3. cbn [N.eqb negb]. cbv zeta.
  rewrite unpack3 by assumption.
  rewrite shr16, shr8, !land255, B0, B1. reflexivity.
Qed.

Lemma chunk1 b0 off :
  (b0 < 256)%N ->
  let n := N.shiftl b0 16 in
  Forall (fun v => v < 64)%N [N.shiftr n 18; N.land (N.shiftr n 12) 63] /\
  decode_chunks off [N.shiftr n 18; N.land (N.shiftr n 12) 63] = inr [b0].
Proof.
  intros H0. cbv zeta. rewrite (shl b0 16), pow16.
  pose proof (chunk1_arith b0 H0) as A. cbv zeta in A.
  destruct A as (A0 & A1 & A2 & B0).
  rewrite shr18, shr12, !land63.
  split; [repeat constructor; assumption|].
  cbn [decode_chunks]. rewrite land15, A2. cbn [N.eqb negb]. cbv zeta.
  rewrite unpack2 by assumption.
  rewrite shr16, B0. reflexivity.
Qed.

Lemma sym_ok v : (v < 64)%N ->
  decode_sym (encode_sym v) = Some v /\ encode_sym v <> PAD_BYTE /\
  In (encode_sym v) (String.list_ascii_of_string URL_SAFE).
Proof.
  intros Hv.
  assert (Hall : forallb sym_ok_b (map N.of_nat (seq 0 64)) = true)
    by (vm_compute; reflexivity).
  rewrite forallb_forall in Hall.
  assert (Hin : In v (map N.of_nat (seq 0 64))).
  { apply in_map_iff. exists (N.to_nat v). split; [lia|]. apply in_seq. lia. }
  specialize (Hall v Hin). unfold sym_ok_b in Hall.
  destruct (decode_sym (encode_sym v)) as [w|] eqn:E; [|discriminate].
  apply andb_true_iff in Hall as [Hab Hc]. apply andb_true_iff in Hab as [Ha Hb].
  apply N.eqb_eq in Ha. subst w. split; [reflexivity|]. split.
  - apply negb_true_iff, Ascii.eqb_neq in Hb. exact Hb.
  - apply existsb_exists in Hc as (c & Hc & Heq). apply Ascii.eqb_eq in Heq.
    subst c. exact Hc.
Qed.

Lemma decode_syms_encode vs off : Forall (fun v => v < 64)%N vs ->
  decode_syms off (map encode_sym vs) = inr vs.
Proof.
  revert off. induction vs as [|v vs IH]; intros off Hv; [reflexivity|].
  apply Forall_cons in Hv as [Hv Hvs]. cbn [map decode_syms].
  rewrite (proj1 (sym_ok v Hv)), (IH (S off) Hvs). reflexivity.
Qed.

Lemma trailing_pad_replicate p : trailing_pad (replicate p PAD_BYTE) = p.
Proof.
  induction p as [|p IH]; [reflexivity|]. cbn [replicate trailing_pad].
  assert (Hf : filter (fun d => negb (Ascii.eqb d PAD_BYTE)) (replicate p PAD_BYTE) = []).
  { clear IH. induction p as [|p IHp]; [reflexivity|]. cbn [replicate].
    rewrite filter_cons_False; [exact IHp|]. rewrite Ascii.eqb_refl. simpl. tauto. }
  rewrite Hf, Ascii.eqb_refl, IH. reflexivity.
Qed.

Lemma trailing_pad_app l p : (forall c, In c l -> c <> PAD_BYTE) ->
  trailing_pad (l ++ replicate p PAD_BYTE) = p.
Proof.
  induction l as [|c l IH]; intros Hl; [apply trailing_pad_replicate|].
  cbn [app trailing_pad].
  rewrite (proj2 (Ascii.eqb_neq c PAD_BYTE)) by (apply Hl; left; reflexivity).
  apply IH. intros d Hd. apply Hl. right. exact Hd.
Qed.

Lemma trailing_pad_le cs : (trailing_pad cs <= length cs)%nat.
Proof.
  induction cs as [|c cs IH]; [reflexivity|]. cbn [trailing_pad length].
  destruct (_ && _); lia.
Qed.

Ltac natsolve := zify; Z.to_euclidean_division_equations; lia.

(** [encode_chunks] with padding: the symbols of the complete and partial
    chunks, then [(3 - len mod 3) mod 3] pad bytes; the symbols decode back
    to the input. *)
Lemma encode_chunks_spec ns : Forall (fun b => b < 256)%N ns ->
  exists vs p,
    encode_chunks true ns = map encode_sym vs ++ replicate p PAD_BYTE /\
    Forall (fun v => v < 64)%N vs /\
    p = ((3 - length ns mod 3) mod 3)%nat /\
    ((length vs + p) mod 4 = 0)%nat /\ (length vs mod 4 <> 1)%nat /\
    forall off, decode_chunks off vs = inr ns.
Proof.
  revert ns. fix IH 1. intros ns Hb.
  destruct ns as [|b0 [|b1 [|b2 rest]]].
  - exists [], 0%nat. split; [reflexivity|]. split; [constructor|].
    split; [reflexivity|]. split; [reflexivity|]. split; [cbn; lia|]. reflexivity.
  - apply Forall_cons in Hb as [H0 _].
    pose proof (fun off => chunk1 b0 off H0) as C. cbv zeta in C.
    exists [N.shiftr (N.shiftl b0 16) 18; N.land (N.shiftr (N.shiftl b0 16) 12) 63], 2%nat.
    split; [reflexivity|].
    split; [exact (proj1 (C 0%nat))|]. repeat split; [|exact (fun off => proj2 (C off))].
    intros Hc; discriminate Hc.
  - apply Forall_cons in Hb as [H0 Hb]. apply Forall_cons in Hb as [H1 _].
    pose proof (fun off => chunk2 b0 b1 off H0 H1) as C. cbv zeta in C.
    set (n := N.lor (N.shiftl b0 16) (N.shiftl b1 8)) in C.
    exists [N.shiftr n 18; N.land (N.shiftr n 12) 63; N.land (N.shiftr n 6) 63], 1%nat.
    split; [reflexivity|].
    split; [exact (proj1 (C 0%nat))|]. repeat split; [|exact (fun off => proj2 (C off))].
    intros Hc; discriminate Hc.
  - apply Forall_cons in Hb as [H0 Hb]. apply Forall_cons in Hb as [H1 Hb].
    apply Forall_cons in Hb as [H2 Hb].
    destruct (IH rest Hb) as (vs & p & He & Hv & Hp & Hl & Hl1 & Hd).
    pose proof (fun off => chunk3 b0 b1 b2 off vs rest H0 H1 H2 (Hd (off + 4)%nat)) as C.
    cbv zeta in C.
    set (n := N.lor (N.shiftl b0 16) (N.lor (N.shiftl b1 8) b2)) in C.
    exists (N.shiftr n 18 :: N.land (N.shiftr n 12) 63 :: N.land (N.shiftr n 6) 63
            :: N.land n 63 :: vs), p.
    cbn [encode_chunks]. rewrite He. split; [reflexivity|].
    split; [exact (Forall_app_2 _ [_; _; _; _] vs (proj1 (C 0%nat)) Hv)|].
    cbn [length app]. rewrite Hp. repeat split.
    + natsolve.
    + revert Hl. natsolve.
    + revert Hl1. natsolve.
    + exact (fun off => proj2 (C off)).
Qed.

Lemma omap_of_to_N bs : omap Byte.of_N (map Byte.to_N bs) = bs.
Proof.
  induction bs as [|b bs IH]; [reflexivity|]. cbn [map omap list_omap].
  rewrite Byte.of_to_N. f_equal. exact IH.
Qed.

Lemma bytes_bounded bs : Forall (fun b => b < 256)%N (map Byte.to_N bs).
Proof.
  induction bs as [|b bs IH]; constructor; [|exact IH].
  pose proof (Byte.to_N_bounded b). lia.
Qed.

Lemma length_list_ascii (s : string) :
  length (String.list_ascii_of_string s) = String.length s.
Proof. induction s as [|c s IH]; [reflexivity|]. cbn. rewrite IH. reflexivity. Qed.

Lemma encode_shape bs :
  exists vs p,
    String.list_ascii_of_string (encode ENGINE bs) = map encode_sym vs ++ replicate p PAD_BYTE /\
    Forall (fun v => v < 64)%N vs /\
    p = ((3 - length bs mod 3) mod 3)%nat /\
    ((length vs + p) mod 4 = 0)%nat /\ (length vs mod 4 <> 1)%nat /\
    forall off, decode_chunks off vs = inr (map Byte.to_N bs).
Proof.
  destruct (encode_chunks_spec _ (bytes_bounded bs)) as (vs & p & He & Hv & Hp & Hl & Hl1 & Hd).
  exists vs, p. unfold encode, ENGINE, config_new. cbn [encode_padding].
  rewrite String.list_ascii_of_string_of_list_ascii, He, length_map in *.
  repeat split; assumption.
Qed.

Lemma decode_encode bs : decode ENGINE (encode ENGINE bs) = inr bs.
Proof.
  destruct (encode_shape bs) as (vs & p & He & Hv & Hp & Hl & Hl1 & Hd).
  unfold decode. rewrite He. unfold ENGINE, config_new. cbn [decode_padding_mode].
  rewrite trailing_pad_app.
  2:{ intros c Hc. apply in_map_iff in Hc as (v & <- & Hin). apply (sym_ok v).
      rewrite Forall_forall in Hv. apply Hv, list_elem_of_In, Hin. }
  rewrite length_app, length_replicate, Nat.add_sub, take_app_length.
  rewrite decode_syms_encode by exact Hv. rewrite length_map.
  destruct (Nat.eqb_spec (length vs mod 4) 1) as [E|_]; [contradiction|].
  assert (Hpad : ((p + length vs mod 4) mod 4 = 0)%nat) by (revert Hl; natsolve).
  rewrite (proj2 (Nat.eqb_eq _ _) Hpad), orb_true_r. cbn [negb].
  rewrite Hd. f_equal. apply omap_of_to_N.
Qed.

Lemma decode_ok_length s out : decode ENGINE s = inr out -> (String.length s mod 4 = 0)%nat.
Proof.
  unfold decode, ENGINE, config_new. cbn [decode_padding_mode]. cbv zeta.
  rewrite <- length_list_ascii.
  remember (String.list_ascii_of_string s) as cs eqn:Ecs. clear Ecs.
  pose proof (trailing_pad_le cs) as Hle.
  remember (trailing_pad cs) as p eqn:Ep. clear Ep.
  rewrite length_take.
  intros H. repeat case_match; try discriminate.
  match goal with Hb : negb _ = false |- _ => apply negb_false_iff in Hb end.
  match goal with Hb : _ || _ = true |- _ =>
    apply orb_true_iff in Hb as [Hb|Hb];
    [apply andb_true_iff in Hb as [Hb1 Hb2]; apply Nat.eqb_eq in Hb1, Hb2
    |apply Nat.eqb_eq in Hb] end; revert Hle; natsolve.
Qed.

(** C5 (counterexample): the gossip engine pads its output, and it
    refuses the same string without its padding. The one-byte payload
    [0x00] is encoded as ["AA=="], and ["AA"] is rejected with
    [InvalidPadding]. *)
Lemma engine_pads_and_rejects_unpadded :
  encode ENGINE [Byte.x00] = "AA==" /\ decode ENGINE "AA" = inl InvalidPadding.
Proof. split; vm_compute; reflexivity. Qed.

(** C5 (as the code does it): every [diff] and [state_vector] string that
    the engine emits is its symbols, all from the URL-safe alphabet
    [A-Z a-z 0-9 - _], followed by [(3 - len mod 3) mod 3] padding
    characters [=]. So the string length is a multiple of 4, and padding
    is present whenever the byte length is not a multiple of 3. Decoding
    gives back the original bytes. Decoding accepts only strings whose
    length is a multiple of 4, so unpadded input of any other length is
    refused. *)
Theorem engine_canonical_padding (bs : list Byte.byte) (s : string) :
  (exists body p,
     String.list_ascii_of_string (encode ENGINE bs) = body ++ replicate p PAD_BYTE /\
     Forall (fun c => In c (String.list_ascii_of_string URL_SAFE)) body /\
     p = ((3 - length bs mod 3) mod 3)%nat /\
     (String.length (encode ENGINE bs) mod 4 = 0)%nat) /\
  decode ENGINE (encode ENGINE bs) = inr bs /\
  (forall out, decode ENGINE s = inr out -> (String.length s mod 4 = 0)%nat).
Proof.
  split; [|split; [apply decode_encode|apply decode_ok_length]].
  destruct (encode_shape bs) as (vs & p & He & Hv & Hp & Hl & _ & _).
  exists (map encode_sym vs), p. split; [exact He|]. split.
  - apply Forall_forall. intros c Hc. apply list_elem_of_In, in_map_iff in Hc as (v & <- & Hin).
    apply (sym_ok v). rewrite Forall_forall in Hv. apply Hv, list_elem_of_In, Hin.
  - split; [exact Hp|]. rewrite <- length_list_ascii, He, length_app, length_map,
      length_replicate. exact Hl.
Qed.

End Base64Facts.

(* ===================================================================== *)
(** ** Pending-RPC table *)
(* ===================================================================== *)

Module PendingRpcFacts.
Import PendingRpc.

(** [KafkaNode::handle_reply] of src/bin/kafka.rs: on [MoreWork] the table
    is unchanged; on [Finished] every entry that matches the reply, the
    invoked one included, is dropped. *)
Lemma kafka_handle_reply_outcome {R} (cbs : list (CallbackInfo R)) event idx info :
  find_matching 0 cbs event = Some (idx, info) ->
  (callback info event = Ok MoreWork -> kafka_handle_reply cbs event = Ok cbs) /\
  (callback info event = Ok Finished ->
     kafka_handle_reply cbs event = Ok (filter (fun c => negb (matches c event)) cbs)).
Proof.
  intros Hf. unfold kafka_handle_reply. rewrite Hf.
  split; intros Hc; rewrite Hc; reflexivity.
Qed.

(** C6: in [LinKv::handle_reply], when a reply matches a pending entry,
    the entry's callback runs. If it returns [MoreWork], the table is left
    unchanged. If it returns [Finished], the second [borrow_mut] of the
    [Finished] arm runs while the first borrow is still held, so the
    handler panics with [BorrowMutError] instead of removing the entry. *)
Theorem linkv_handle_reply_outcome (cbs : list (CallbackInfo LinKvPayload))
    (event : Message LinKvPayload) (idx : nat) (info : CallbackInfo LinKvPayload) :
  find_matching 0 cbs event = Some (idx, info) ->
  (callback info event = Ok Finished ->
     linkv_handle_reply (mkRefCell false cbs) event = Panic "already borrowed: BorrowMutError") /\
  (callback info event = Ok MoreWork ->
     linkv_handle_reply (mkRefCell false cbs) event = Ok (mkRefCell false cbs)).
Proof.
  intros Hf. unfold linkv_handle_reply, borrow_mut. cbn [borrowed value].
  rewrite Hf. split; intros Hc; rewrite Hc; reflexivity.
Qed.

(** A [read] of key ["k"] sent to [lin-kv] as message 1 on behalf of a
    request addressed to [n1], and the [read_ok] reply to it. *)
Lemma linkv_handle_reply_outcome_witness :
  find_matching 0 [mkCallbackInfo "n1" [1%nat] read_process_callback]
    (mkMessage "lin-kv" "n1" (Some 2%nat) (Some 1%nat) (ReadOk "v"))
  = Some (0%nat, mkCallbackInfo "n1" [1%nat] read_process_callback) /\
  linkv_handle_reply (mkRefCell false [mkCallbackInfo "n1" [1%nat] read_process_callback])
    (mkMessage "lin-kv" "n1" (Some 2%nat) (Some 1%nat) (ReadOk "v"))
  = Panic "already borrowed: BorrowMutError".
Proof.
  split; [reflexivity|].
  apply (proj1 (linkv_handle_reply_outcome
                  [mkCallbackInfo "n1" [1%nat] read_process_callback]
                  (mkMessage "lin-kv" "n1" (Some 2%nat) (Some 1%nat) (ReadOk "v"))
                  0%nat (mkCallbackInfo "n1" [1%nat] read_process_callback)
                  ltac:(reflexivity))).

  reflexivity.
Defined.

End PendingRpcFacts.

(* ===================================================================== *)
(** ** Kafka log: [send] and [poll] *)
(* ===================================================================== *)

Module KafkaFacts.
Import Kafka.

Section Facts.
Context {Msg : Type}.
Implicit Types (logs : gmap string (Out Msg)) (key : string) (msg : Msg).

Lemma handle_send_eq logs key msg :
  handle_send logs key msg =
    (<[key := YArray (log_of logs key ++ [msg])]> logs,
     SendOk (N.of_nat (length (log_of logs key)))).
Proof.
  unfold handle_send, log_of.
  destruct (logs !! key) as [[l|v]|]; cbn;
    rewrite ?insert_insert_eq, ?length_app; cbn; do 2 f_equal; lia.
Qed.

Lemma send_all_offsets logs key (msgs : list Msg) :
  (send_all logs key msgs).2 = map N.of_nat (seq (length (log_of logs key)) (length msgs)).
Proof.
  revert logs. induction msgs as [|m rest IH]; intros logs; [reflexivity|].
  cbn [send_all]. rewrite handle_send_eq.
  destruct (send_all _ key rest) as [logs'' offs] eqn:E.
  cbn. f_equal.
  specialize (IH (<[key := YArray (log_of logs key ++ [m])]> logs)).
  rewrite E in IH. cbn in IH. rewrite IH. unfold log_of at 1.
  rewrite lookup_insert_eq, length_app. cbn. rewrite Nat.add_1_r. reflexivity.
Qed.

(** C7: [send] appends [msg] to the log of [key] (an empty log when
    there is none), leaves the other keys alone and replies with the
    offset [len - 1] of the grown log, i.e. the old length. A run of
    sends on one key through one node, with no gossip in between,
    returns consecutive offsets from the old length of the log, so from
    0 for a fresh key. *)
Theorem send_appends_with_dense_offsets logs key :
  (forall msg,
     (handle_send logs key msg).1 !! key = Some (YArray (log_of logs key ++ [msg])) /\
     (forall k, k <> key -> (handle_send logs key msg).1 !! k = logs !! k) /\
     (handle_send logs key msg).2 = SendOk (N.of_nat (length (log_of logs key ++ [msg])) - 1)) /\
  (forall msgs : list Msg,
     (send_all logs key msgs).2 = map N.of_nat (seq (length (log_of logs key)) (length msgs))) /\
  (logs !! key = None -> forall msgs : list Msg,
     (send_all logs key msgs).2 = map N.of_nat (seq 0 (length msgs))).
Proof.
  split; [|split].
  - intros msg. rewrite handle_send_eq. cbn. split; [apply lookup_insert_eq|]. split.
    + intros k Hk. apply lookup_insert_ne. congruence.
    + rewrite length_app. cbn. f_equal. lia.
  - apply send_all_offsets.
  - intros Hn msgs. rewrite send_all_offsets. unfold log_of. rewrite Hn. reflexivity.
Qed.

(** C10: for [poll], a key that was not requested, or that has no log,
    gets no entry. A requested key whose log starts at or after the
    requested offset gets the empty list. Every entry of a requested key
    with a log lists the pairs [(i, log[i])] for [i] from the requested
    offset up, in index order. *)
Theorem poll_entries logs (offsets : gmap string N) :
  exists msgs, handle_poll logs offsets = PollOk msgs /\
    forall k,
      (offsets !! k = None -> msgs !! k = None) /\
      forall from, offsets !! k = Some from ->
        (logs !! k = None -> msgs !! k = None) /\
        (forall l, logs !! k = Some (YArray l) -> length l <= N.to_nat from ->
           msgs !! k = Some []) /\
        (forall ps, msgs !! k = Some ps ->
           exists l, logs !! k = Some (YArray l) /\
             length ps = length l - N.to_nat from /\
             forall j, ps !! j = (fun x => (N.of_nat (N.to_nat from + j), x))
                                   <$> l !! (N.to_nat from + j)).
Proof.
  eexists. split; [reflexivity|]. intros k.
  rewrite map_lookup_imap. split; [intros Hk; rewrite Hk; reflexivity|].
  intros from Hk. rewrite Hk. cbn. split; [|split].
  - intros Hl. rewrite Hl. reflexivity.
  - intros l Hl Hlen. rewrite Hl. f_equal. apply drop_ge.
    rewrite length_imap. exact Hlen.
  - intros ps Hps. destruct (logs !! k) as [[l|v]|] eqn:Hl; try discriminate.
    injection Hps as <-. exists l. split; [reflexivity|]. split.
    + rewrite length_drop, length_imap. reflexivity.
    + intros j. rewrite lookup_drop, list_lookup_imap. reflexivity.
Qed.
End Facts.

End KafkaFacts.

(* ===================================================================== *)
(** ** G-counter: [add] and [read] *)
(* ===================================================================== *)

Module WrapHelpers.

Lemma sum_step_panic (p : string) (l : list (string * Z)) :
  fold_left GCounter.sum_step l (Panic p) = Panic p.
Proof. induction l as [|kv l IH]; [reflexivity|exact IH]. Qed.

Lemma sum_step_negative (l : list (string * Z)) (acc : res Z) :
  (exists kv, kv ∈ l /\ (kv.2 < 0)%Z) -> (forall e, acc <> Err e) ->
  exists p, fold_left GCounter.sum_step l acc = Panic p.
Proof.
  revert acc. induction l as [|kv l IH]; intros acc [kv' [Hin Hneg]] Hacc.
  - apply not_elem_of_nil in Hin. contradiction.
  - cbn [fold_left]. apply elem_of_cons in Hin as [->|Hin].
    + destruct acc as [s|e|p]; [|exfalso; exact (Hacc e eq_refl)|].
      * cbn. rewrite (proj2 (Z.ltb_lt _ _) Hneg). exists "all messages should be positive".
        apply sum_step_panic.
      * exists p. apply sum_step_panic.
    + apply IH; [exists kv'; split; assumption|].
      intros e. destruct acc as [s|e'|p]; cbn; [|exfalso; exact (Hacc e' eq_refl)|discriminate].
      destruct (kv.2 <? 0)%Z; [discriminate|].
      destruct (GCounter.U64_MAX <? s + kv.2)%Z; discriminate.
Qed.

Lemma fold_step_broadcast (ms : list N) (log : list Z) :
  fold_left Broadcast.step_broadcast ms log = log ++ (GCounter.u64_as_i64 <$> ms).
Proof.
  revert log. induction ms as [|m ms IH]; intros log; cbn; [rewrite app_nil_r; reflexivity|].
  rewrite IH. unfold Broadcast.step_broadcast. rewrite <- app_assoc. reflexivity.
Qed.

Lemma read_go_eq (acc : gset N) (l : list Z) :
  Broadcast.read_go acc l =
    if forallb (fun v => 0 <=? v)%Z l then Ok (acc ∪ list_to_set (Z.to_N <$> l))
    else Panic "all messages should be positive".
Proof.
  revert acc. induction l as [|v l IH]; intros acc; cbn.
  - f_equal. set_solver.
  - rewrite IH. destruct (v <? 0)%Z eqn:Hv.
    + apply Z.ltb_lt in Hv. rewrite (proj2 (Z.leb_gt _ _) Hv). reflexivity.
    + apply Z.ltb_ge in Hv. rewrite (proj2 (Z.leb_le _ _) Hv). cbn.
      destruct (forallb _ l); [f_equal; set_solver|reflexivity].
Qed.

Lemma u64_as_i64_small (m : N) : (m < 2 ^ 63)%N -> GCounter.u64_as_i64 m = Z.of_N m.
Proof. intros Hm. unfold GCounter.u64_as_i64. rewrite (proj2 (N.ltb_lt _ _) Hm). reflexivity. Qed.

Lemma u64_as_i64_large (m : N) : (2 ^ 63 <= m)%N -> GCounter.u64_as_i64 m = (Z.of_N m - 2 ^ 64)%Z.
Proof. intros Hm. unfold GCounter.u64_as_i64. rewrite (proj2 (N.ltb_ge _ _) Hm). reflexivity. Qed.

End WrapHelpers.

Module GCounterFacts.
Import GCounter.
Local Open Scope Z_scope.

Lemma sum_nonneg (l : list (string * Z)) :
  Forall (fun kv => 0 <= kv.2) l -> 0 <= fold_right Z.add 0 (map snd l).
Proof.
  induction l as [|kv l IH]; intros Hl; [reflexivity|].
  apply Forall_cons in Hl as [Hkv Hl]. cbn. specialize (IH Hl). lia.
Qed.

Lemma fold_sum_step (l : list (string * Z)) (s : Z) :
  0 <= s -> Forall (fun kv => 0 <= kv.2) l ->
  s + fold_right Z.add 0 (map snd l) <= U64_MAX ->
  fold_left sum_step l (Ok s) = Ok (s + fold_right Z.add 0 (map snd l)).
Proof.
  revert s. induction l as [|[k v] l IH]; intros s Hs Hl Hsum.
  - cbn. f_equal. lia.
  - apply Forall_cons in Hl as [Hv Hl]. cbn in Hv, Hsum |- *.
    pose proof (sum_nonneg l Hl) as Hr.
    cbn [fold_left].
    rewrite (proj2 (Z.ltb_ge v 0)) by lia.
    rewrite (proj2 (Z.ltb_ge U64_MAX (s + v))) by (unfold U64_MAX in *; lia).
    rewrite IH; [f_equal; lia|lia|exact Hl|lia].
Qed.


Lemma fold_sum_step_overflow (l : list (string * Z)) (s : Z) :
  0 <= s -> s <= U64_MAX -> Forall (fun kv => 0 <= kv.2) l ->
  U64_MAX < s + fold_right Z.add 0 (map snd l) ->
  fold_left sum_step l (Ok s) = Panic "attempt to add with overflow".
Proof.
  revert s. induction l as [|[k v] l IH]; intros s Hs Hs' Hl Hsum.
  - cbn in Hsum. lia.
  - apply Forall_cons in Hl as [Hv Hl]. cbn in Hv, Hsum |- *.
    cbn [fold_left]. rewrite (proj2 (Z.ltb_ge v 0)) by lia.
    destruct (U64_MAX <? s + v) eqn:Ho.
    + apply WrapHelpers.sum_step_panic.
    + apply Z.ltb_ge in Ho. apply IH; [lia|lia|exact Hl|lia].
Qed.


End GCounterFacts.

(* ===================================================================== *)
(** ** Anti-entropy convergence *)
(* ===================================================================== *)

Module ClusterFacts.
Import Cluster.

Lemma elem_of_delete_list {A} (x : A) (i : nat) (l : list A) : x ∈ delete i l -> x ∈ l.
Proof.
  revert i. induction l as [|y l IH]; intros i Hx; [destruct i; exact Hx|].
  destruct i as [|i]; cbn in Hx.
  - apply elem_of_cons. right. exact Hx.
  - apply elem_of_cons in Hx as [->|Hx]; apply elem_of_cons; [left; reflexivity|right; eauto].
Qed.

Lemma node_gossip_go_mem self t st draws j nbrs msg :
  msg ∈ node_gossip_go self t st draws j nbrs ->
  g_src msg = self /\ sent_at msg = t /\ g_state_vector msg = doc st /\
  exists remote, known st !! g_dst msg = Some remote /\ g_diff msg = doc st ∖ remote.
Proof.
  revert j. induction nbrs as [|n rest IH]; intros j Hm; cbn in Hm; [set_solver|].
  destruct (known st !! n) as [remote|] eqn:Hk; [|set_solver].
  destruct (_ && _); [eauto|].
  apply elem_of_cons in Hm as [->|Hm]; [|eauto].
  cbn. repeat split. exists remote. split; [exact Hk|reflexivity].
Qed.

Lemma step_network c e t msg :
  msg ∈ network (step c e t) ->
  msg ∈ network c \/
  exists n st draws, e = EvTick n draws /\ nodes c !! n = Some st /\
    msg ∈ node_gossip_go n t st draws 0 (neighborhood st).
Proof.
  destruct e as [n m|n draws|i|i]; cbn.
  - destruct (nodes c !! n); cbn; intros Hm; left; exact Hm.
  - destruct (nodes c !! n) as [st|] eqn:Hn; cbn; intros Hm; [|left; exact Hm].
    apply elem_of_app in Hm as [Hm|Hm]; [left; exact Hm|].
    right. exists n, st, draws. auto.
  - destruct (network c !! i) as [msg'|]; [|intros Hm; left; exact Hm].
    destruct (nodes c !! g_dst msg'); cbn; intros Hm; left; eapply elem_of_delete_list; eauto.
  - intros Hm. left. eapply elem_of_delete_list; eauto.
Qed.

Lemma step_nodes_is_Some c e t x :
  is_Some (nodes (step c e t) !! x) <-> is_Some (nodes c !! x).
Proof.
  destruct e as [n m|n draws|i|i]; cbn; [| |destruct (network c !! i) as [msg|]|]; try reflexivity.
  - destruct (nodes c !! n) as [st|] eqn:Hn; cbn; [|reflexivity].
    destruct (decide (n = x)) as [->|Hne].
    + rewrite lookup_insert_eq, Hn. split; eauto.
    + rewrite lookup_insert_ne by exact Hne. reflexivity.
  - destruct (nodes c !! n); reflexivity.
  - destruct (nodes c !! g_dst msg) as [st|] eqn:Hn; cbn; [|reflexivity].
    destruct (decide (g_dst msg = x)) as [<-|Hne].
    + rewrite lookup_insert_eq, Hn. split; eauto.
    + rewrite lookup_insert_ne by exact Hne. reflexivity.
Qed.

Lemma doc_of_step_mono c e t x : doc_of c x ⊆ doc_of (step c e t) x.
Proof.
  unfold doc_of. destruct e as [n m|n draws|i|i]; cbn; [| |destruct (network c !! i) as [msg|]|];
    try reflexivity.
  - destruct (nodes c !! n) as [st|] eqn:Hn; cbn; [|reflexivity].
    destruct (decide (n = x)) as [->|Hne].
    + rewrite lookup_insert_eq, Hn. cbn. set_solver.
    + rewrite lookup_insert_ne by exact Hne. reflexivity.
  - destruct (nodes c !! n); reflexivity.
  - destruct (nodes c !! g_dst msg) as [st|] eqn:Hn; cbn; [|reflexivity].
    destruct (decide (g_dst msg = x)) as [<-|Hne].
    + rewrite lookup_insert_eq, Hn. cbn. unfold apply_update. set_solver.
    + rewrite lookup_insert_ne by exact Hne. reflexivity.
Qed.

Lemma step_nodes_lookup c e t a st' :
  nodes (step c e t) !! a = Some st' ->
  exists st, nodes c !! a = Some st /\
    (known st' = known st \/
     exists i msg, e = EvDeliver i /\ network c !! i = Some msg /\ a = g_dst msg /\
       known st' = <[g_src msg := g_state_vector msg]> (known st)).
Proof.
  destruct e as [n m|n draws|i|i]; cbn; [| |destruct (network c !! i) as [msg|] eqn:Hi|];
    try (intros H; exists st'; auto; fail).
  - destruct (nodes c !! n) as [st|] eqn:Hn; cbn; [|intros H; exists st'; auto].
    destruct (decide (n = a)) as [->|Hne].
    + rewrite lookup_insert_eq. intros [= <-]. exists st. auto.
    + rewrite lookup_insert_ne by exact Hne. intros H. exists st'. auto.
  - destruct (nodes c !! n); cbn; intros H; exists st'; auto.
  - destruct (nodes c !! g_dst msg) as [st|] eqn:Hn; cbn; [|intros H; exists st'; auto].
    destruct (decide (g_dst msg = a)) as [<-|Hne].
    + rewrite lookup_insert_eq. intros [= <-]. exists st. split; [exact Hn|].
      right. exists i, msg. auto.
    + rewrite lookup_insert_ne by exact Hne. intros H. exists st'. auto.
Qed.

Lemma inv_step c e t : inv c -> inv (step c e t).
Proof.
  intros (I1 & I2 & I3). pose proof (doc_of_step_mono c e t) as Mono.
  split; [|split].
  - intros a st' b sv Ha Hk.
    destruct (step_nodes_lookup c e t a st' Ha) as (st & Hst & [Hkn | (i & msg & -> & Hi & -> & Hkn)]).
    + rewrite Hkn in Hk. etransitivity; [eapply I1; eauto|apply Mono].
    + rewrite Hkn in Hk. destruct (decide (g_src msg = b)) as [<-|Hne].
      * rewrite lookup_insert_eq in Hk. injection Hk as <-.
        etransitivity; [apply I2, list_elem_of_lookup_2 with i; exact Hi|apply Mono].
      * rewrite lookup_insert_ne in Hk by exact Hne.
        etransitivity; [eapply I1; eauto|apply Mono].
  - intros msg Hm. destruct (step_network c e t msg Hm) as [Hm'|(n & st & draws & -> & Hn & Hm')].
    + etransitivity; [apply I2, Hm'|apply Mono].
    + destruct (node_gossip_go_mem _ _ _ _ _ _ _ Hm') as (Hs & _ & Hsv & _).
      rewrite Hs, Hsv. etransitivity; [|apply Mono]. unfold doc_of. rewrite Hn. reflexivity.
  - intros msg Hm. destruct (step_network c e t msg Hm) as [Hm'|(n & st & draws & -> & Hn & Hm')].
    + pose proof (I3 msg Hm') as H3. pose proof (Mono (g_dst msg)) as H4.
      clear -H3 H4. set_solver.
    + destruct (node_gossip_go_mem _ _ _ _ _ _ _ Hm') as (Hs & _ & Hsv & remote & Hk & Hd).
      rewrite Hsv, Hd. pose proof (I1 n st (g_dst msg) remote Hn Hk) as Hr.
      pose proof (Mono (g_dst msg)) as H4. clear -Hr H4.
      intros x Hx. destruct (decide (x ∈ remote)); set_solver.
Qed.

Section Run.
Variable init : Cluster.
Variable sched : nat -> ev.
Hypothesis init_network : network init = [].

Lemma doc_of_run_mono s t x : s <= t ->
  doc_of (run init sched s) x ⊆ doc_of (run init sched t) x.
Proof.
  induction 1 as [|t _ IH]; [reflexivity|].
  etransitivity; [exact IH|]. apply doc_of_step_mono.
Qed.

Lemma run_nodes_is_Some t x :
  is_Some (nodes (run init sched t) !! x) <-> is_Some (nodes init !! x).
Proof.
  induction t as [|t IH]; [reflexivity|]. cbn [run].
  rewrite step_nodes_is_Some. exact IH.
Qed.

Lemma inv_run t : inv init -> inv (run init sched t).
Proof. intros H0. induction t as [|t IH]; [exact H0|]. apply inv_step, IH. Qed.

(** A message in flight carries the state vector of its sender at the
    step it was sent. *)
Lemma sent_state_vector t msg : msg ∈ network (run init sched t) ->
  sent_at msg < t /\
  doc_of (run init sched (sent_at msg)) (g_src msg) ⊆ g_state_vector msg.
Proof.
  induction t as [|t IH]; intros Hm.
  - cbn in Hm. rewrite init_network in Hm. set_solver.
  - cbn [run] in Hm. destruct (step_network _ _ _ _ Hm) as [Hm'|(n & st & draws & _ & Hn & Hm')].
    + destruct (IH Hm') as [Ht Hsv]. split; [lia|exact Hsv].
    + destruct (node_gossip_go_mem _ _ _ _ _ _ _ Hm') as (Hs & Ht & Hsv & _).
      rewrite Hs, Ht, Hsv. split; [lia|]. unfold doc_of. rewrite Hn. reflexivity.
Qed.
End Run.

Lemma filter_delete_le {A} (f : A -> bool) (i : nat) (l : list A) :
  length (List.filter f (delete i l)) <= length (List.filter f l).
Proof.
  revert i. induction l as [|x l IH]; intros i; [destruct i; reflexivity|].
  destruct i as [|i]; simpl; destruct (f x); simpl; try lia.
  - specialize (IH i). lia.
  - apply IH.
Qed.

Lemma filter_delete_lt {A} (f : A -> bool) (i : nat) (l : list A) (x : A) :
  l !! i = Some x -> f x = true ->
  length (List.filter f (delete i l)) < length (List.filter f l).
Proof.
  revert i. induction l as [|y l IH]; intros i Hi Hx; [destruct i; discriminate|].
  destruct i as [|i]; simpl in Hi |- *.
  - injection Hi as ->. rewrite Hx. cbn. lia.
  - destruct (f y); simpl; [specialize (IH i Hi Hx); lia|exact (IH i Hi Hx)].
Qed.

Lemma filter_all_false {A} (f : A -> bool) (l : list A) :
  (forall x, x ∈ l -> f x = false) -> List.filter f l = [].
Proof.
  induction l as [|x l IH]; intros Hl; [reflexivity|]. cbn.
  rewrite (Hl x) by (apply elem_of_cons; left; reflexivity).
  apply IH. intros y Hy. apply Hl, elem_of_cons. right. exact Hy.
Qed.

Lemma stale_step_le c e t t0 : t <= t0 ->
  stale t (network (step c e t0)) <= stale t (network c).
Proof.
  intros Ht. unfold stale, step. destruct e as [n m|n draws|i|i].
  - destruct (nodes c !! n); reflexivity.
  - destruct (nodes c !! n) as [st|] eqn:Hn; cbn [network]; [|reflexivity].
    rewrite List.filter_app, length_app.
    assert (Hnew : List.filter (fun m => Nat.ltb (sent_at m) t)
                     (node_gossip_go n t0 st draws 0 (neighborhood st)) = []).
    { apply filter_all_false. intros msg Hm.
      destruct (node_gossip_go_mem _ _ _ _ _ _ _ Hm) as (_ & -> & _).
      apply Nat.ltb_ge. exact Ht. }
    rewrite Hnew. cbn [length]. lia.
  - destruct (network c !! i) as [msg|]; [|reflexivity].
    destruct (nodes c !! g_dst msg); apply filter_delete_le.
  - apply filter_delete_le.
Qed.

Lemma stale_deliver_lt c i t t0 msg :
  network c !! i = Some msg -> sent_at msg < t ->
  stale t (network (step c (EvDeliver i) t0)) < stale t (network c).
Proof.
  intros Hi Hs. unfold stale, step. rewrite Hi.
  destruct (nodes c !! g_dst msg); cbn [network];
    (apply (filter_delete_lt _ _ _ msg Hi); apply Nat.ltb_lt; exact Hs).
Qed.

Section Fairness.
Variable init : Cluster.
Variable sched : nat -> ev.

Lemma stale_run_mono t t0 t1 : t <= t0 -> t0 <= t1 ->
  stale t (network (run init sched t1)) <= stale t (network (run init sched t0)).
Proof.
  intros Ht Hle. induction t1 as [|t1 IH].
  - replace t0 with 0 by lia. reflexivity.
  - destruct (Nat.eq_dec t0 (S t1)) as [->|Hne]; [reflexivity|].
    cbn [run]. etransitivity; [apply stale_step_le; lia|apply IH; lia].
Qed.

(** Infinitely many deliveries from [a] to [b] include, for every [t],
    one of a message sent at [t] or later: only the finitely many
    messages in flight at [t] were sent before it. *)
Lemma fresh_delivery a b t :
  (forall t0, exists t', t0 <= t' /\ delivers init sched t' a b) ->
  exists t', delivers_fresh init sched t t' a b.
Proof.
  intros Hfair.
  assert (H : forall n t0, t <= t0 -> stale t (network (run init sched t0)) <= n ->
                exists t', delivers_fresh init sched t t' a b).
  { induction n as [|n IH]; intros t0 Ht0 Hs;
      destruct (Hfair t0) as (t1 & Ht1 & i & msg & Hsch & Hi & Hsrc & Hdst);
      (destruct (decide (t <= sent_at msg)) as [Hge|Hlt];
       [exists t1, i, msg; auto|]);
      pose proof (stale_deliver_lt (run init sched t1) i t t1 msg Hi ltac:(lia)) as Hd;
      pose proof (stale_run_mono t t0 t1 Ht0 Ht1) as Hm;
      assert (Hrun : run init sched (S t1) = step (run init sched t1) (EvDeliver i) t1)
        by (cbn [run]; rewrite Hsch; reflexivity).
    - rewrite <- Hrun in Hd. lia.
    - rewrite <- Hrun in Hd. apply (IH (S t1)); lia. }
  exact (H _ t (le_n t) (le_n _)).
Qed.
End Fairness.

Section Transfer.
Variable init : Cluster.
Variable sched : nat -> ev.
Hypothesis init_network : network init = [].
Hypothesis init_inv : inv init.

(** A fresh delivery from [a] to [b] brings to [b] everything [a] had at
    [t]. *)
Lemma fresh_delivery_transfers a b t t' :
  delivers_fresh init sched t t' a b -> is_Some (nodes init !! b) ->
  doc_of (run init sched t) a ⊆ doc_of (run init sched (S t')) b.
Proof.
  intros (i & msg & Hsch & Hi & <- & <- & Hge) Hb.
  assert (Hm : msg ∈ network (run init sched t')) by (eapply list_elem_of_lookup_2; exact Hi).
  destruct (sent_state_vector init sched init_network t' msg Hm) as [_ Hsv].
  destruct (inv_run init sched t' init_inv) as (_ & _ & I3).
  specialize (I3 msg Hm).
  pose proof (doc_of_run_mono init sched t (sent_at msg) (g_src msg) Hge) as Hmono.
  apply (run_nodes_is_Some init sched t') in Hb.
  destruct (nodes (run init sched t') !! g_dst msg) as [st|] eqn:Hn;
    [|destruct Hb as [? Hb]; discriminate].
  assert (Hrun : doc_of (run init sched (S t')) (g_dst msg) = doc st ∪ g_diff msg).
  { cbn [run]. rewrite Hsch. unfold step. rewrite Hi, Hn. unfold doc_of.
    cbn [nodes]. rewrite lookup_insert_eq. reflexivity. }
  assert (Hd : doc_of (run init sched t') (g_dst msg) = doc st)
    by (unfold doc_of; rewrite Hn; reflexivity).
  rewrite Hrun. rewrite Hd in I3. clear -Hsv I3 Hmono. set_solver.
Qed.

Hypothesis edge_closed : forall a b, edge init a b -> is_Some (nodes init !! b).

Lemma reach_transfers a b :
  (forall a b, edge init a b -> forall t0, exists t', t0 <= t' /\ delivers init sched t' a b) ->
  reach init a b -> forall t, exists t', doc_of (run init sched t) a ⊆ doc_of (run init sched t') b.
Proof.
  intros Hfair. induction 1 as [a|a b c Hab _ IH]; intros t.
  - exists t. reflexivity.
  - destruct (fresh_delivery init sched a b t (Hfair a b Hab)) as [t' Hf].
    pose proof (fresh_delivery_transfers a b t t' Hf (edge_closed a b Hab)) as H1.
    destruct (IH (S t')) as [t'' H2]. exists t''. etransitivity; [exact H1|exact H2].
Qed.
End Transfer.

Lemma lookup_list_to_map_fn {V} (f : string -> V) (ids : list string) (x : string) :
  (list_to_map ((fun nid => (nid, f nid)) <$> ids) : gmap string V) !! x =
    if decide (x ∈ ids) then Some (f x) else None.
Proof.
  induction ids as [|i ids IH].
  - cbn. rewrite decide_False by set_solver. reflexivity.
  - rewrite fmap_cons, list_to_map_cons. cbn [fst snd].
    destruct (decide (i = x)) as [->|Hne].
    + rewrite lookup_insert_eq, decide_True by set_solver. reflexivity.
    + rewrite lookup_insert_ne by exact Hne. rewrite IH.
      destruct (decide (x ∈ ids)), (decide (x ∈ i :: ids)); set_solver.
Qed.

Lemma init_cluster_nodes ids rngs x :
  nodes (init_cluster ids rngs) !! x =
    if decide (x ∈ ids) then Some (init_node ids (rngs x)) else None.
Proof. apply (lookup_list_to_map_fn (fun nid => init_node ids (rngs nid))). Qed.

Lemma init_cluster_inv ids rngs : inv (init_cluster ids rngs).
Proof.
  split; [|split; intros msg Hm; cbn in Hm; set_solver].
  intros a st b sv Ha Hk. rewrite init_cluster_nodes in Ha.
  destruct (decide (a ∈ ids)); [|discriminate]. injection Ha as <-.
  cbn in Hk. rewrite (lookup_list_to_map_fn (fun _ => ∅)) in Hk.
  destruct (decide (b ∈ ids)); [|discriminate]. injection Hk as <-. set_solver.
Qed.

Lemma init_cluster_edge_closed ids rngs a b :
  edge (init_cluster ids rngs) a b -> is_Some (nodes (init_cluster ids rngs) !! b).
Proof.
  intros (st & Ha & Hb). rewrite init_cluster_nodes in Ha |- *.
  destruct (decide (a ∈ ids)); [|discriminate]. injection Ha as <-.
  cbn in Hb. unfold Neighborhood.from_init_neighborhood in Hb.
  pose proof (elem_of_sublist _ _ _ Hb (NeighborhoodFacts.from_init_go_sublist ids (rngs a) 0)).
  rewrite decide_True by assumption. eauto.
Qed.

(** The schedule [round_robin_sched] on the two-node cluster in which
    every draw succeeds: each period of 6 steps brings the cluster back to
    its initial state, and delivers a gossip message along each of the
    four edges. *)
Lemma round_robin_sched_at k r : r < 6 -> round_robin_sched (6 * k + r) = round_robin_sched r.
Proof.
  intros Hr. unfold round_robin_sched.
  replace ((6 * k + r) mod 6) with (r mod 6); [reflexivity|].
  zify; Z.to_euclidean_division_equations; lia.
Qed.

Lemma round_robin_period k :
  run (init_cluster ["n1"; "n2"] (fun _ _ => true)) round_robin_sched (6 * k)
  = init_cluster ["n1"; "n2"] (fun _ _ => true).
Proof.
  induction k as [|k IH]; [reflexivity|].
  replace (6 * S k) with (S (S (S (S (S (S (6 * k + 0))))))) by lia.
  cbn [run].
  replace (S (6 * k + 0)) with (6 * k + 1) by lia.
  replace (S (6 * k + 1)) with (6 * k + 2) by lia.
  replace (S (6 * k + 2)) with (6 * k + 3) by lia.
  replace (S (6 * k + 3)) with (6 * k + 4) by lia.
  replace (S (6 * k + 4)) with (6 * k + 5) by lia.
  rewrite (round_robin_sched_at k 0), (round_robin_sched_at k 1), (round_robin_sched_at k 2),
    (round_robin_sched_at k 3), (round_robin_sched_at k 4), (round_robin_sched_at k 5) by lia.
  rewrite Nat.add_0_r, IH. vm_compute. reflexivity.
Qed.

Lemma run_rr_succ k r : r < 6 ->
  run (init_cluster ["n1"; "n2"] (fun _ _ => true)) round_robin_sched (S (6 * k + r))
  = step (run (init_cluster ["n1"; "n2"] (fun _ _ => true)) round_robin_sched (6 * k + r))
      (round_robin_sched r) (6 * k + r).
Proof. intros Hr. cbn [run]. rewrite round_robin_sched_at by exact Hr. reflexivity. Qed.

Ltac unroll_rr k :=
  repeat (match goal with
          |- context [run _ round_robin_sched (6 * k + S ?r)] =>
            replace (6 * k + S r) with (S (6 * k + r)) by lia;
            rewrite (run_rr_succ k r) by lia
          end);
  rewrite ?Nat.add_0_r, round_robin_period.

Lemma round_robin_fair a b :
  edge (init_cluster ["n1"; "n2"] (fun _ _ => true)) a b -> forall t0, exists t', t0 <= t' /\
    delivers (init_cluster ["n1"; "n2"] (fun _ _ => true)) round_robin_sched t' a b.
Proof.
  intros (st & Ha & Hb) t0. rewrite init_cluster_nodes in Ha.
  destruct (decide (a ∈ ["n1"; "n2"])) as [Hain|]; [|discriminate]. injection Ha as <-.
  assert (Hn : neighborhood (init_node ["n1"; "n2"] (fun _ => true)) = ["n1"; "n2"])
    by reflexivity.
  rewrite Hn in Hb.
  apply elem_of_cons in Hain as [->|Hain]; [|apply list_elem_of_singleton in Hain as ->];
  (apply elem_of_cons in Hb as [->|Hb]; [|apply list_elem_of_singleton in Hb as ->]).
  - exists (6 * t0 + 1). split; [lia|]. exists 0%nat. eexists.
    split; [rewrite round_robin_sched_at by lia; reflexivity|].
    split; [unroll_rr t0; vm_compute; reflexivity|split; reflexivity].
  - exists (6 * t0 + 2). split; [lia|]. exists 0%nat. eexists.
    split; [rewrite round_robin_sched_at by lia; reflexivity|].
    split; [unroll_rr t0; vm_compute; reflexivity|split; reflexivity].
  - exists (6 * t0 + 4). split; [lia|]. exists 0%nat. eexists.
    split; [rewrite round_robin_sched_at by lia; reflexivity|].
    split; [unroll_rr t0; vm_compute; reflexivity|split; reflexivity].
  - exists (6 * t0 + 5). split; [lia|]. exists 0%nat. eexists.
    split; [rewrite round_robin_sched_at by lia; reflexivity|].
    split; [unroll_rr t0; vm_compute; reflexivity|split; reflexivity].
Qed.

Lemma nonneg_step c e t :
  (forall x op, op ∈ doc_of c x -> (0 <= op.2)%Z) ->
  (forall msg op, msg ∈ network c -> op ∈ g_diff msg -> (0 <= op.2)%Z) ->
  (forall a m, e = EvBroadcast a m -> (m < 2 ^ 63)%N) ->
  (forall x op, op ∈ doc_of (step c e t) x -> (0 <= op.2)%Z) /\
  (forall msg op, msg ∈ network (step c e t) -> op ∈ g_diff msg -> (0 <= op.2)%Z).
Proof.
  intros Hd Hn He. split.
  - intros x op. unfold doc_of. destruct e as [n m|n draws|i|i]; cbn.
    + destruct (nodes c !! n) as [st|] eqn:Hst; cbn; [|apply Hd].
      destruct (decide (n = x)) as [<-|Hne].
      * rewrite lookup_insert_eq. cbn. intros Hop. apply elem_of_union in Hop as [Hop|Hop].
        -- apply (Hd n). unfold doc_of. rewrite Hst. exact Hop.
        -- apply elem_of_singleton in Hop as ->. cbn.
           rewrite WrapHelpers.u64_as_i64_small by exact (He n m eq_refl). lia.
      * rewrite lookup_insert_ne by exact Hne. apply Hd.
    + destruct (nodes c !! n); apply Hd.
    + destruct (network c !! i) as [msg|] eqn:Hi; [|apply Hd].
      destruct (nodes c !! g_dst msg) as [st|] eqn:Hst; cbn; [|apply Hd].
      destruct (decide (g_dst msg = x)) as [<-|Hne].
      * rewrite lookup_insert_eq. cbn. unfold apply_update. intros Hop.
        apply elem_of_union in Hop as [Hop|Hop].
        -- apply (Hd (g_dst msg)). unfold doc_of. rewrite Hst. exact Hop.
        -- apply (Hn msg); [apply list_elem_of_lookup_2 with i; exact Hi|exact Hop].
      * rewrite lookup_insert_ne by exact Hne. apply Hd.
    + apply Hd.
  - intros msg op Hm. destruct (step_network c e t msg Hm) as [Hm'|(n & st & draws & -> & Hst & Hm')].
    + apply Hn, Hm'.
    + destruct (node_gossip_go_mem _ _ _ _ _ _ _ Hm') as (_ & _ & _ & remote & _ & Hdiff).
      rewrite Hdiff. intros Hop. apply elem_of_difference in Hop as [Hop _].
      apply (Hd n). unfold doc_of. rewrite Hst. exact Hop.
Qed.

Lemma nonneg_run init sched :
  (forall x op, op ∈ doc_of init x -> (0 <= op.2)%Z) ->
  (forall msg op, msg ∈ network init -> op ∈ g_diff msg -> (0 <= op.2)%Z) ->
  (forall t0 a m, sched t0 = EvBroadcast a m -> (m < 2 ^ 63)%N) ->
  forall t,
    (forall x op, op ∈ doc_of (run init sched t) x -> (0 <= op.2)%Z) /\
    (forall msg op, msg ∈ network (run init sched t) -> op ∈ g_diff msg -> (0 <= op.2)%Z).
Proof.
  intros Hd Hn Hs t. induction t as [|t [IHd IHn]]; [split; assumption|].
  cbn [run]. apply nonneg_step; [exact IHd|exact IHn|].
  intros a m He. exact (Hs t a m He).
Qed.

Lemma init_cluster_doc_nonneg ids rngs x op : op ∈ doc_of (init_cluster ids rngs) x -> (0 <= op.2)%Z.
Proof.
  unfold doc_of. rewrite init_cluster_nodes. destruct (decide (x ∈ ids)); cbn; set_solver.
Qed.




End ClusterFacts.

(* ===================================================================== *)
(** ** Message ids and reply matching *)
(* ===================================================================== *)

Module EnvelopeFacts.
Import Envelope.

Lemma next_msg_ids_eq (ctx : Context) (n : nat) :
  (next_id ctx < USIZE_MODULUS)%N ->
  (next_msg_ids ctx n).1 =
    map (fun i => (next_id ctx + N.of_nat i) mod USIZE_MODULUS)%N (seq 0 n).
Proof.
  revert ctx. induction n as [|n IH]; intros ctx Hc; [reflexivity|].
  cbn [next_msg_ids next_msg_id].
  destruct (next_msg_ids (mkContext (node_id ctx) ((next_id ctx + 1) mod USIZE_MODULUS)) n)
    as [ids ctx''] eqn:E.
  cbn [fst].
  assert (Hlt : ((next_id ctx + 1) mod USIZE_MODULUS < USIZE_MODULUS)%N)
    by (apply N.mod_lt; unfold USIZE_MODULUS; lia).
  specialize (IH (mkContext (node_id ctx) ((next_id ctx + 1) mod USIZE_MODULUS)) Hlt).
  rewrite E in IH. cbn [fst next_id] in IH. rewrite IH.
  cbn [seq map]. rewrite <- seq_shift, map_map. f_equal.
  - rewrite N.add_0_r. symmetry. apply N.mod_small. exact Hc.
  - apply map_ext. intros i. rewrite N.Div0.add_mod_idemp_l.
    f_equal. lia.
Qed.

Lemma collect_by_id_ok {P} (acc m : gmap nat (Message P)) (msgs : list (Message P)) :
  collect_by_id acc msgs = Ok m ->
  (forall k, is_Some (acc !! k) -> is_Some (m !! k)) /\
  (forall x, x ∈ msgs -> exists id, msg_id x = Some id /\ is_Some (m !! id)).
Proof.
  revert acc. induction msgs as [|x rest IH]; intros acc Hc; cbn in Hc.
  - injection Hc as <-. split; [auto|]. intros x Hx. apply not_elem_of_nil in Hx as [].
  - destruct (msg_id x) as [id|] eqn:Hid; [|discriminate].
    destruct (IH _ Hc) as [Hacc Hrest]. split.
    + intros k Hk. apply Hacc. destruct (decide (k = id)) as [->|Hne].
      * rewrite lookup_insert_eq. eauto.
      * rewrite lookup_insert_ne by congruence. exact Hk.
    + intros y Hy. apply elem_of_cons in Hy as [->|Hy]; [|exact (Hrest y Hy)].
      exists id. split; [exact Hid|]. apply Hacc. rewrite lookup_insert_eq. eauto.
Qed.

Lemma collect_by_id_none {P} (acc : gmap nat (Message P)) (msgs : list (Message P)) :
  (exists x, x ∈ msgs /\ msg_id x = None) <->
  collect_by_id acc msgs = Panic "called `Option::unwrap()` on a `None` value".
Proof.
  revert acc. induction msgs as [|x rest IH]; intros acc; cbn.
  - split; [intros (y & Hy & _); apply not_elem_of_nil in Hy as []|discriminate].
  - destruct (msg_id x) as [id|] eqn:Hid.
    + rewrite <- IH. split.
      * intros (y & Hy & Hn). apply elem_of_cons in Hy as [->|Hy]; [congruence|eauto].
      * intros (y & Hy & Hn). exists y. split; [apply elem_of_cons; auto|exact Hn].
    + split; [reflexivity|]. intros _. exists x. split; [apply elem_of_cons; auto|exact Hid].
Qed.

(** The ids [Context::next_msg_id] hands out are consecutive modulo
    2^64: from one context, [n <= 2^64] successive ids (each [.id(ctx)]
    of a builder and each [construct_reply] draws one) are pairwise
    distinct. *)
Theorem next_msg_ids_distinct (ctx : Context) (n : nat) :
  (next_id ctx < USIZE_MODULUS)%N -> (N.of_nat n <= USIZE_MODULUS)%N ->
  (next_msg_ids ctx n).1 =
    map (fun i => (next_id ctx + N.of_nat i) mod USIZE_MODULUS)%N (seq 0 n) /\
  NoDup (next_msg_ids ctx n).1.
Proof.
  intros Hc Hn. rewrite next_msg_ids_eq by exact Hc. split; [reflexivity|].
  change (NoDup ((fun i => (next_id ctx + N.of_nat i) mod USIZE_MODULUS)%N <$> seq 0 n)).
  apply NoDup_fmap_2_strong; [|apply NoDup_seq].
  intros i j Hi Hj Heq.
  apply list_elem_of_In, in_seq in Hi. apply list_elem_of_In, in_seq in Hj.
  unfold USIZE_MODULUS in *.
  zify; Z.to_euclidean_division_equations; lia.
Qed.

(** [MessageSet::new] panics exactly when one of the messages has no
    [msg_id]. Otherwise it counts the messages, and a reply built by
    [construct_reply] (from any context) to any message of the set is
    recognised by [is_matching_reply]. *)
Theorem messageset_reply_matches {P} (msgs : list (Message P)) :
  ((exists x, x ∈ msgs /\ msg_id x = None) <->
     messageset_new msgs = Panic "called `Option::unwrap()` on a `None` value") /\
  (forall set, messageset_new msgs = Ok set ->
     count set = length msgs /\
     forall x ctx p, x ∈ msgs -> is_matching_reply set (construct_reply ctx x p).1 = true).
Proof.
  split.
  - unfold messageset_new. rewrite (collect_by_id_none ∅ msgs).
    destruct (collect_by_id ∅ msgs); split; congruence.
  - intros set Hs. unfold messageset_new in Hs.
    destruct (collect_by_id ∅ msgs) as [m| |] eqn:Hc; try discriminate.
    injection Hs as <-. split; [reflexivity|].
    intros x ctx p Hx. destruct (collect_by_id_ok _ _ _ Hc) as [_ Hm].
    destruct (Hm x Hx) as (id & Hid & Hsome).
    unfold is_matching_reply, construct_reply. cbn. rewrite Hid.
    apply bool_decide_eq_true. exact Hsome.
Qed.

Lemma next_msg_ids_distinct_witness :
  (next_msg_ids (mkContext "n1" (2 ^ 64 - 1)) 3).1 = [2 ^ 64 - 1; 0; 1]%N /\
  NoDup (next_msg_ids (mkContext "n1" (2 ^ 64 - 1)) 3).1.
Proof.
  split; [vm_compute; reflexivity|].
  exact (proj2 (next_msg_ids_distinct (mkContext "n1" (2 ^ 64 - 1)) 3
    ltac:(unfold USIZE_MODULUS; cbn; lia) ltac:(unfold USIZE_MODULUS; cbn; lia))).
Defined.

End EnvelopeFacts.

(* ===================================================================== *)
(** ** Requests to lin-kv and their replies *)
(* ===================================================================== *)

Module LinKvFacts.
Import PendingRpc Envelope LinKvRpc.

Lemma find_matching_app {R} (pre : list (CallbackInfo R)) (info : CallbackInfo R) msg i :
  Forall (fun c => matches c msg = false) pre -> matches info msg = true ->
  find_matching i (pre ++ [info]) msg = Some (i + length pre, info).
Proof.
  revert i. induction pre as [|c pre IH]; intros i Hpre Hinfo; cbn.
  - rewrite Hinfo, Nat.add_0_r. reflexivity.
  - apply Forall_cons in Hpre as [Hc Hpre]. rewrite Hc, IH by assumption.
    do 2 f_equal. lia.
Qed.

(** [LinKv::persist_callback] sends one request, from the node to
    [lin-kv], carrying the next id of the node's context, and appends one
    entry for it to the pending table. A reply that [lin-kv] builds for
    this request with [construct_reply] matches the new entry exactly when
    the original message was addressed to this node. When no older entry
    matches it, [handle_reply]'s search finds the new entry, at the end of
    the table. *)
Theorem persist_callback_reply_matches {P} (ctx : Context) (pl : LinKvPayload)
    (orig : Message P) (proc : Message LinKvPayload -> res CallbackStatus)
    (cbs : list (CallbackInfo LinKvPayload)) (kvctx : Context) (p : LinKvPayload) :
  let req := mkMessage (node_id ctx) "lin-kv" (Some (N.to_nat (next_id ctx))) None pl in
  let info := mkCallbackInfo (dst orig) [N.to_nat (next_id ctx)] proc in
  let reply := (construct_reply kvctx req p).1 in
  persist_callback ctx pl orig proc (mkRefCell false cbs) =
    Ok (mkRefCell false (cbs ++ [info]), (next_msg_id ctx).2, [req]) /\
  matches info reply = String.eqb (dst orig) (node_id ctx) /\
  (dst orig = node_id ctx -> Forall (fun c => matches c reply = false) cbs ->
     find_matching 0 (cbs ++ [info]) reply = Some (length cbs, info)).
Proof.
  cbv zeta. split; [|split].
  - unfold persist_callback, builder_id, builder, builder_dst, builder_payload, next_msg_id.
    cbn [build b_dst b_payload b_src b_id b_in_reply_to messageset_new collect_by_id
         msg_id messages fst snd].
    rewrite insert_empty, map_to_list_singleton. reflexivity.
  - unfold matches, PendingRpc.is_matching_reply, construct_reply. cbn.
    rewrite bool_decide_eq_true_2 by (apply list_elem_of_singleton; reflexivity).
    reflexivity.
  - intros Hd Hpre. apply (find_matching_app cbs _ _ 0); [exact Hpre|].
    unfold matches, PendingRpc.is_matching_reply, construct_reply. cbn.
    rewrite bool_decide_eq_true_2 by (apply list_elem_of_singleton; reflexivity).
    rewrite Hd. apply String.eqb_refl.
Qed.

Lemma persist_callback_eq {P} (ctx : Context) (pl : LinKvPayload) (orig : Message P)
    (proc : Message LinKvPayload -> res CallbackStatus) (cbs : list (CallbackInfo LinKvPayload)) :
  persist_callback ctx pl orig proc (mkRefCell false cbs) =
    Ok (mkRefCell false (cbs ++ [mkCallbackInfo (dst orig) [N.to_nat (next_id ctx)] proc]),
        (next_msg_id ctx).2,
        [mkMessage (node_id ctx) "lin-kv" (Some (N.to_nat (next_id ctx))) None pl]).
Proof.
  unfold persist_callback, builder_id, builder, builder_dst, builder_payload, next_msg_id.
  cbn [build b_dst b_payload b_src b_id b_in_reply_to messageset_new collect_by_id
       msg_id messages fst snd].
  rewrite insert_empty, map_to_list_singleton. reflexivity.
Qed.

Lemma reply_matches_new_entry {R} (ctx kvctx : Context) (od : string) (pl p : R)
    (proc : Message R -> res CallbackStatus) :
  matches (mkCallbackInfo od [N.to_nat (next_id ctx)] proc)
    (construct_reply kvctx (mkMessage (node_id ctx) "lin-kv" (Some (N.to_nat (next_id ctx))) None pl) p).1
  = String.eqb od (node_id ctx).
Proof.
  unfold matches, PendingRpc.is_matching_reply, construct_reply. cbn.
  rewrite bool_decide_eq_true_2 by (apply list_elem_of_singleton; reflexivity).
  reflexivity.
Qed.

(** A [LinKv::read] round trip through [persist_callback] and
    [<LinKv as Handler>::step] (src/rpc/lin_kv.rs): when the original
    message was addressed to this node and no older pending entry
    matches, the [read_ok] reply that [lin-kv] builds for the request is
    taken as a reply, reaches the new entry, and its read callback
    reports [Finished]; the removal then borrows the table a second time
    while [handle_reply] still holds it, so the round trip ends in a
    [BorrowMutError] panic rather than an emptied entry. *)
Theorem linkv_read_round_trip {P IP : Type} (ctx : Context) (key : string) (orig : Message P)
    (cbs : list (CallbackInfo LinKvPayload)) (kvctx : Context) (v : string) :
  let req := mkMessage (node_id ctx) "lin-kv" (Some (N.to_nat (next_id ctx))) None (Read key) in
  let reply := (construct_reply kvctx req (ReadOk v)).1 in
  dst orig = node_id ctx -> Forall (fun c => matches c reply = false) cbs ->
  exists tbl,
    persist_callback ctx (Read key) orig read_process_callback (mkRefCell false cbs) =
      Ok (tbl, (next_msg_id ctx).2, [req]) /\
    linkv_step (IP := IP) tbl (Runtime.EMessage reply) = Panic "already borrowed: BorrowMutError".
Proof.
  cbv zeta. intros Hd Hpre. eexists. split; [apply persist_callback_eq|].
  unfold linkv_step, is_reply.
  rewrite bool_decide_eq_true_2 by (unfold construct_reply; cbn; eexists; reflexivity).
  cbn [negb]. unfold construct_reply at 2. cbn [payload fst].
  unfold linkv_handle_reply, borrow_mut. cbn [borrowed value].
  rewrite (find_matching_app cbs _ _ 0); [|exact Hpre|].
  - cbn [callback]. unfold construct_reply. cbn. reflexivity.
  - pose proof (reply_matches_new_entry ctx kvctx (dst orig) (Read key) (ReadOk v)
      read_process_callback) as Hm.
    transitivity (String.eqb (dst orig) (node_id ctx)); [exact Hm|].
    rewrite Hd. apply String.eqb_refl.
Qed.

Lemma linkv_read_round_trip_witness :
  exists tbl,
    persist_callback (mkContext "n1" 5) (Read "k") (mkMessage "c1" "n1" (Some 1) None tt)
      read_process_callback (mkRefCell false []) =
      Ok (tbl, (next_msg_id (mkContext "n1" 5)).2,
          [mkMessage "n1" "lin-kv" (Some 5) None (Read "k")]) /\
    linkv_step (IP := unit) tbl
      (Runtime.EMessage (construct_reply (mkContext "lin-kv" 0)
         (mkMessage "n1" "lin-kv" (Some 5) None (Read "k")) (ReadOk "x")).1) =
      Panic "already borrowed: BorrowMutError".
Proof.
  exact (linkv_read_round_trip (IP := unit) (mkContext "n1" 5) "k" (mkMessage "c1" "n1" (Some 1) None tt)
    [] (mkContext "lin-kv" 0) "x" eq_refl (List.Forall_nil _)).
Defined.

End LinKvFacts.

(* ===================================================================== *)
(** ** The stdin thread *)
(* ===================================================================== *)

Module RuntimeIoFacts.
Import Runtime RuntimeIo.

(** While the event loop holds the receiving end, the stdin thread
    forwards every line, in order, as a [Message] and then sends [Eof].
    A line that is not JSON ends the thread with an error: the lines
    before it have been forwarded, but [Eof] is never sent. *)
Theorem receive_loop_forwards {Json IP : Type} (parse : string -> option Json)
    (rx_alive : nat -> bool) (lines : list string) (vs : list Json) :
  (forall k, rx_alive k = true) -> map parse lines = map Some vs ->
  receive_loop (IP:=IP) parse rx_alive (map Some lines) = (map TMessage vs ++ [TEof], Ok tt) /\
  (forall bad rest, parse bad = None ->
     receive_loop (IP:=IP) parse rx_alive (map Some lines ++ Some bad :: rest)
       = (map TMessage vs, Err "read input message from STDIN")).
Proof.
  intros Halive Hparse. unfold receive_loop. generalize 0 as k.
  revert vs Hparse. induction lines as [|l lines IH]; intros vs Hparse k.
  - destruct vs; [|discriminate]. cbn. rewrite Halive. split; [reflexivity|].
    intros bad rest Hbad. rewrite Hbad. reflexivity.
  - destruct vs as [|v vs]; [discriminate|]. cbn in Hparse. injection Hparse as Hl Hparse.
    destruct (IH vs Hparse (S k)) as [H1 H2]. cbn. rewrite Hl, Halive. split.
    + rewrite H1. reflexivity.
    + intros bad rest Hbad. rewrite (H2 bad rest Hbad). reflexivity.
Qed.

Lemma receive_loop_forwards_witness :
  receive_loop (IP:=unit) (fun s => if String.eqb s "bad" then None else Some s) (fun _ => true)
    (map Some ["a"; "b"] ++ Some "bad" :: [Some "c"]) = (map TMessage ["a"; "b"], Err "read input message from STDIN").
Proof.
  apply (receive_loop_forwards (fun s => if String.eqb s "bad" then None else Some s)
    (fun _ => true) ["a"; "b"] ["a"; "b"]); reflexivity.
Defined.

End RuntimeIoFacts.

(* ===================================================================== *)
(** ** Kafka: committed offsets, gossip emission and receipt *)
(* ===================================================================== *)

Module KafkaNodeFacts.
Import KafkaNode.

Lemma commit_lookup (stored : gmap string Z) (l : list (string * N)) (k : string) :
  foldr (fun kv acc => <[kv.1 := GCounter.u64_as_i64 kv.2]> acc) stored l !! k =
    match (list_to_map l : gmap string N) !! k with
    | Some v => Some (GCounter.u64_as_i64 v)
    | None => stored !! k
    end.
Proof.
  induction l as [|[k' v'] l IH]; cbn [foldr]; [rewrite list_to_map_nil, lookup_empty; reflexivity|].
  rewrite list_to_map_cons. cbn [fst snd].
  destruct (decide (k' = k)) as [->|Hne].
  - rewrite !lookup_insert_eq. reflexivity.
  - rewrite !lookup_insert_ne by exact Hne. exact IH.
Qed.

Lemma i64_as_u64_as_i64 (v : N) : (v < 2 ^ 64)%N -> i64_as_u64 (GCounter.u64_as_i64 v) = v.
Proof.
  intros Hv. unfold i64_as_u64, GCounter.u64_as_i64.
  destruct (v <? 2 ^ 63)%N eqn:E.
  - apply N.ltb_lt in E. rewrite (proj2 (Z.ltb_ge _ _)) by lia. lia.
  - apply N.ltb_ge in E. rewrite (proj2 (Z.ltb_lt _ _)) by lia. lia.
Qed.

(** [list_committed_offsets] after [commit_offsets]: every listed key
    that was committed gets exactly the committed [u64] offset back (the
    [as i64] of the commit and the [as u64] of the listing cancel, also
    for offsets of 2^63 and above); a listed key that was not committed
    keeps what the document held, 0 when it held nothing; keys that were
    not listed get no entry. *)
Theorem commit_then_list (stored : gmap string Z) (offsets : gmap string N)
    (keys : list string) :
  map_Forall (fun _ v => (v < 2 ^ 64)%N) offsets ->
  forall k,
    (k ∉ keys -> handle_list_committed_offsets (handle_commit_offsets stored offsets) keys !! k = None) /\
    (forall v, k ∈ keys -> offsets !! k = Some v ->
       handle_list_committed_offsets (handle_commit_offsets stored offsets) keys !! k = Some v) /\
    (k ∈ keys -> offsets !! k = None ->
       handle_list_committed_offsets (handle_commit_offsets stored offsets) keys !! k =
         Some (i64_as_u64 (default 0%Z (stored !! k)))) /\
    (k ∈ keys -> offsets !! k = None -> stored !! k = None ->
       handle_list_committed_offsets (handle_commit_offsets stored offsets) keys !! k = Some 0%N).
Proof.
  intros Hbound k. unfold handle_list_committed_offsets, handle_commit_offsets.
  rewrite (ClusterFacts.lookup_list_to_map_fn
    (fun k => i64_as_u64 (default 0%Z (foldr (fun kv acc => <[kv.1 := GCounter.u64_as_i64 kv.2]> acc)
       stored (map_to_list offsets) !! k)))).
  rewrite commit_lookup, list_to_map_to_list.
  split; [|split; [|split]].
  - intros Hk. rewrite decide_False by exact Hk. reflexivity.
  - intros v Hk Hv. rewrite decide_True by exact Hk. rewrite Hv. cbn.
    rewrite i64_as_u64_as_i64 by exact (Hbound k v Hv). reflexivity.
  - intros Hk Hn. rewrite decide_True by exact Hk. rewrite Hn. reflexivity.
  - intros Hk Hn Hs. rewrite decide_True by exact Hk. rewrite Hn, Hs. reflexivity.
Qed.

Lemma commit_then_list_witness :
  handle_list_committed_offsets
    (handle_commit_offsets {["b" := 3%Z]} {["a" := (2 ^ 64 - 1)%N]}) ["a"; "b"; "c"] !! "a"
    = Some (2 ^ 64 - 1)%N.
Proof.
  apply (proj1 (proj2 (commit_then_list {["b" := 3%Z]} {["a" := (2 ^ 64 - 1)%N]} ["a"; "b"; "c"]
    ltac:(intros k v Hv; apply lookup_singleton_Some in Hv as [_ <-]; lia) "a"))).
  - set_solver.
  - apply lookup_singleton_eq.
Defined.

End KafkaNodeFacts.

Module KafkaGossipFacts.
Import KafkaNode.

Section Emission.
Context {Doc SV : Type} `{EqDecision SV}.
Variable encode_diff_v1 : Doc -> SV -> list Byte.byte.
Variable state_vector : Doc -> SV.
Variable sv_encode_v1 : SV -> list Byte.byte.
Variables (node_id : string) (doc : Doc) (known : gmap string SV) (draws : nat -> bool).

Lemma send_gossip_go_mem j nbrs m :
  m ∈ (send_gossip_go encode_diff_v1 state_vector sv_encode_v1 node_id doc known draws j nbrs).1 ->
  exists n remote, n ∈ nbrs /\ n <> node_id /\ known !! n = Some remote /\
    m = mkMessage node_id n None None
          (AGossip (Base64.encode Base64.ENGINE (encode_diff_v1 doc remote))
                   (Base64.encode Base64.ENGINE (sv_encode_v1 (state_vector doc)))).
Proof.
  revert j. induction nbrs as [|n rest IH]; intros j Hm; cbn in Hm.
  - apply not_elem_of_nil in Hm. contradiction.
  - destruct (String.eqb n node_id) eqn:Eself.
    + destruct (IH (S j) Hm) as (n' & r & Hin & Hrest). exists n', r.
      split; [apply elem_of_cons; right; exact Hin|exact Hrest].
    + apply String.eqb_neq in Eself.
      destruct (known !! n) as [remote|] eqn:Ek; [|apply not_elem_of_nil in Hm; contradiction].
      destruct (bool_decide (remote = state_vector doc) && negb (draws j)).
      * destruct (IH (S j) Hm) as (n' & r & Hin & Hrest). exists n', r.
        split; [apply elem_of_cons; right; exact Hin|exact Hrest].
      * specialize (IH (S j)).
        destruct (send_gossip_go encode_diff_v1 state_vector sv_encode_v1 node_id doc known draws (S j) rest)
          as [sent r] eqn:Erec.
        cbn in Hm. apply elem_of_cons in Hm as [->|Hm].
        -- exists n, remote. split; [apply elem_of_cons; left; reflexivity|].
           split; [exact Eself|split; [exact Ek|reflexivity]].
        -- destruct (IH Hm) as (n' & r' & Hin & Hrest). exists n', r'.
           split; [apply elem_of_cons; right; exact Hin|exact Hrest].
Qed.

Lemma send_gossip_go_ok j nbrs :
  (forall n, n ∈ nbrs -> n <> node_id -> is_Some (known !! n)) ->
  (send_gossip_go encode_diff_v1 state_vector sv_encode_v1 node_id doc known draws j nbrs).2 = Ok tt.
Proof.
  revert j. induction nbrs as [|n rest IH]; intros j Hk; cbn; [reflexivity|].
  assert (Hk' : forall n', n' ∈ rest -> n' <> node_id -> is_Some (known !! n'))
    by (intros n' Hin; apply Hk; apply elem_of_cons; right; exact Hin).
  destruct (String.eqb n node_id) eqn:Eself; [apply IH; exact Hk'|].
  apply String.eqb_neq in Eself.
  destruct (Hk n ltac:(apply elem_of_cons; left; reflexivity) Eself) as [remote Ek].
  rewrite Ek.
  destruct (bool_decide (remote = state_vector doc) && negb (draws j)); [apply IH; exact Hk'|].
  specialize (IH (S j) Hk').
  destruct (send_gossip_go encode_diff_v1 state_vector sv_encode_v1 node_id doc known draws (S j) rest)
    as [sent r]. exact IH.
Qed.
End Emission.

(** [send_gossip] of src/bin/kafka.rs never addresses the node itself:
    every gossip message it emits carries the node's own id as [src] and
    a neighbour other than the node as [dst], one whose state vector the
    node knows; and the round completes without a panic as soon as every
    neighbour other than the node itself has an entry in [known] (the
    node's own entry is never looked up). *)
Theorem send_gossip_never_self {Doc SV : Type} `{EqDecision SV}
    (encode_diff_v1 : Doc -> SV -> list Byte.byte) (state_vector : Doc -> SV)
    (sv_encode_v1 : SV -> list Byte.byte) (node_id : string) (doc : Doc)
    (known : gmap string SV) (nbrs : list string) (draws : nat -> bool) :
  (forall m, m ∈ (send_gossip encode_diff_v1 state_vector sv_encode_v1 node_id doc known nbrs draws).1 ->
     src m = node_id /\ dst m <> node_id /\ dst m ∈ nbrs /\ is_Some (known !! dst m)) /\
  ((forall n, n ∈ nbrs -> n <> node_id -> is_Some (known !! n)) ->
     (send_gossip encode_diff_v1 state_vector sv_encode_v1 node_id doc known nbrs draws).2 = Ok tt).
Proof.
  split.
  - intros m Hm. destruct (send_gossip_go_mem _ _ _ _ _ _ _ _ _ _ Hm) as (n & r & Hin & Hne & Hk & ->).
    cbn. split; [reflexivity|split; [exact Hne|split; [exact Hin|exists r; exact Hk]]].
  - apply send_gossip_go_ok.
Qed.

(** A gossip message emitted by [send_gossip] of src/bin/kafka.rs is
    accepted by [handle_admin] up to the [yrs] update itself: provided
    [StateVector::decode_v1] inverts [StateVector::encode_v1], neither
    base64 decoding nor state-vector decoding fails on it, and when the
    update decodes and applies, the receiver records the sender's current
    state vector under the sender's id. *)
Theorem gossip_accepted_by_handle_admin {Doc SV U : Type} `{EqDecision SV}
    (encode_diff_v1 : Doc -> SV -> list Byte.byte) (state_vector : Doc -> SV)
    (sv_encode_v1 : SV -> list Byte.byte) (sv_decode_v1 : list Byte.byte -> option SV)
    (update_decode_v1 : list Byte.byte -> option U) (apply_update : Doc -> U -> res Doc)
    (node_id : string) (doc : Doc) (known : gmap string SV) (nbrs : list string)
    (draws : nat -> bool) (m : Message AdminPayload) (rdoc : Doc) (rknown : gmap string SV) :
  (forall s, sv_decode_v1 (sv_encode_v1 s) = Some s) ->
  m ∈ (send_gossip encode_diff_v1 state_vector sv_encode_v1 node_id doc known nbrs draws).1 ->
  exists remote, known !! dst m = Some remote /\
    handle_admin sv_decode_v1 update_decode_v1 apply_update rdoc rknown m =
      match update_decode_v1 (encode_diff_v1 doc remote) with
      | None => Err "Update decode failed"
      | Some u =>
          match apply_update rdoc u with
          | Ok d => Ok (d, <[node_id := state_vector doc]> rknown)
          | Err e => Err e
          | Panic p => Panic p
          end
      end.
Proof.
  intros Hsv Hm. destruct (send_gossip_go_mem _ _ _ _ _ _ _ _ _ _ Hm) as (n & r & _ & _ & Hk & ->).
  exists r. split; [exact Hk|].
  unfold handle_admin. cbn [payload src].
  rewrite !Base64Facts.decode_encode, Hsv. reflexivity.
Qed.

Lemma gossip_accepted_by_handle_admin_witness :
  exists remote, ({["n2" := 0]} : gmap string nat) !! "n2" = Some remote /\
    handle_admin (fun l => Some (length l)) (fun _ => Some 0) (fun (d : nat) (_ : nat) => Ok d) 5 ∅
      (mkMessage "n1" "n2" None None
         (AGossip (Base64.encode Base64.ENGINE []) (Base64.encode Base64.ENGINE (repeat Byte.x00 1)))) =
    Ok (5, <["n1" := 1]> (∅ : gmap string nat)).
Proof.
  apply (gossip_accepted_by_handle_admin (fun (_ : nat) (_ : nat) => []) (fun d => d)
    (fun s => repeat Byte.x00 s) (fun l => Some (length l)) (fun _ => Some 0) (fun d _ => Ok d)
    "n1" 1 {["n2" := 0]} ["n1"; "n2"] (fun _ => false)
    (mkMessage "n1" "n2" None None
       (AGossip (Base64.encode Base64.ENGINE []) (Base64.encode Base64.ENGINE (repeat Byte.x00 1))))
    5 ∅).
  - intros s. rewrite repeat_length. reflexivity.
  - vm_compute. left.
Defined.

Lemma send_gossip_never_self_witness :
  (send_gossip (fun (_ : nat) (_ : nat) => []) (fun d => d) (fun s => repeat Byte.x00 s)
     "n1" 1 {["n2" := 0]} ["n1"; "n2"] (fun _ => false)).2 = Ok tt.
Proof.
  apply (proj2 (send_gossip_never_self (fun (_ : nat) (_ : nat) => []) (fun d => d)
    (fun s => repeat Byte.x00 s) "n1" 1 {["n2" := 0]} ["n1"; "n2"] (fun _ => false))).
  intros n Hn Hne. apply elem_of_cons in Hn as [->|Hn]; [contradiction|].
  apply list_elem_of_singleton in Hn as ->. rewrite lookup_singleton_eq. eexists; reflexivity.
Defined.

End KafkaGossipFacts.

Module KafkaSendPollFacts.
Import Kafka.

Section Facts.
Context {Msg : Type}.
Implicit Types (logs : gmap string (Out Msg)) (key : string).

Lemma send_all_log logs key (msgs : list Msg) :
  (send_all logs key msgs).1 !! key =
    match msgs with
    | [] => logs !! key
    | _ => Some (YArray (log_of logs key ++ msgs))
    end.
Proof.
  revert logs. induction msgs as [|m rest IH]; intros logs; [reflexivity|].
  cbn [send_all]. rewrite KafkaFacts.handle_send_eq.
  specialize (IH (<[key := YArray (log_of logs key ++ [m])]> logs)).
  destruct (send_all _ key rest) as [logs'' offs]. cbn in IH |- *. rewrite IH.
  destruct rest as [|m' rest'].
  - rewrite lookup_insert_eq. reflexivity.
  - unfold log_of at 1. rewrite lookup_insert_eq, <- app_assoc. reflexivity.
Qed.
End Facts.

(** [handle_send] then [handle_poll] (src/bin/kafka/main.rs,
    src/bin/kafka.rs): after a run of sends on one key through one node,
    a poll of that key from offset [o] reads back every message of the
    run whose returned offset is at least [o], paired with that offset. *)
Theorem send_then_poll {Msg : Type} (logs : gmap string (Out Msg)) (key : string)
    (msgs : list Msg) (o : N) :
  exists polled, handle_poll (send_all logs key msgs).1 {[key := o]} = PollOk polled /\
    forall i off m, (send_all logs key msgs).2 !! i = Some off -> msgs !! i = Some m ->
      (o <= off)%N -> exists ps, polled !! key = Some ps /\ (off, m) ∈ ps.
Proof.
  eexists. split; [reflexivity|]. intros i off m Hoff Hm Ho.
  rewrite KafkaFacts.send_all_offsets in Hoff.
  change (map N.of_nat ?l) with (N.of_nat <$> l) in Hoff.
  rewrite list_lookup_fmap in Hoff.
  destruct (seq _ _ !! i) as [x|] eqn:Hx; [|discriminate]. cbn in Hoff.
  injection Hoff as <-. apply lookup_seq in Hx as [-> Hi].
  rewrite map_lookup_imap, lookup_singleton_eq. cbn.
  rewrite send_all_log. destruct msgs as [|m0 rest] eqn:Hmsgs; [discriminate|].
  rewrite <- Hmsgs in *.
  eexists. split; [reflexivity|].
  set (L := length (log_of logs key)) in *.
  apply list_elem_of_lookup_2 with (i := L + i - N.to_nat o).
  rewrite lookup_drop, list_lookup_imap.
  replace (N.to_nat o + (L + i - N.to_nat o)) with (L + i) by lia.
  rewrite lookup_app_r by (subst L; lia).
  replace (L + i - length (log_of logs key)) with i by (subst L; lia).
  rewrite Hm. reflexivity.
Qed.

End KafkaSendPollFacts.

(* ===================================================================== *)
(** ** Large values wrap to negative [i64] entries *)
(* ===================================================================== *)

Module WrapFacts.
Import WrapHelpers.

(** [Broadcast] then [Read] of src/bin/broadcast.rs, on a node whose
    message array starts empty and receives no gossip: when every message
    broadcast so far is below 2^63, a read returns exactly the set of
    broadcast messages; a single message in [2^63, 2^64) is stored by
    [message as i64] as a negative entry, and every read from then on
    panics with "all messages should be positive". *)
Theorem broadcast_then_read (ms : list N) :
  (Forall (fun m => m < 2 ^ 63)%N ms ->
     Broadcast.step_read (fold_left Broadcast.step_broadcast ms []) = Ok (list_to_set ms)) /\
  (forall m, m ∈ ms -> (2 ^ 63 <= m < 2 ^ 64)%N ->
     Broadcast.step_read (fold_left Broadcast.step_broadcast ms []) =
       Panic "all messages should be positive").
Proof.
  unfold Broadcast.step_read. rewrite fold_step_broadcast, app_nil_l, read_go_eq.
  split.
  - intros Hall.
    assert (Hf : forallb (fun v => 0 <=? v)%Z (GCounter.u64_as_i64 <$> ms) = true).
    { apply forallb_forall. intros v Hv. apply list_elem_of_In in Hv.
      apply list_elem_of_fmap in Hv as [m [-> Hm]].
      rewrite u64_as_i64_small by (rewrite Forall_forall in Hall; apply Hall;
        first [exact Hm|apply list_elem_of_In; exact Hm]).
      apply Z.leb_le. lia. }
    rewrite Hf. f_equal.
    assert (Hid : Z.to_N <$> (GCounter.u64_as_i64 <$> ms) = ms).
    { clear Hf. induction ms as [|m ms IH]; [reflexivity|].
      apply Forall_cons in Hall as [Hm Hall]. cbn.
      rewrite u64_as_i64_small by exact Hm. rewrite IH by exact Hall. f_equal. lia. }
    rewrite Hid. set_solver.
  - intros m Hm Hr.
    assert (Hf : forallb (fun v => 0 <=? v)%Z (GCounter.u64_as_i64 <$> ms) = false).
    { apply not_true_iff_false. intros Hall. rewrite forallb_forall in Hall.
      specialize (Hall (GCounter.u64_as_i64 m)).
      rewrite u64_as_i64_large in Hall by lia.
      assert (Hin : In (Z.of_N m - 2 ^ 64)%Z (GCounter.u64_as_i64 <$> ms)).
      { apply list_elem_of_In. rewrite <- u64_as_i64_large by lia.
        apply list_elem_of_fmap_2. exact Hm. }
      specialize (Hall Hin). apply Z.leb_le in Hall. lia. }
    rewrite Hf. reflexivity.
Qed.

Lemma broadcast_then_read_witness :
  Broadcast.step_read (fold_left Broadcast.step_broadcast [7%N; 2 ^ 63 + 1; 3]%N []) =
    Panic "all messages should be positive".
Proof.
  apply (proj2 (broadcast_then_read [7%N; 2 ^ 63 + 1; 3]%N) (2 ^ 63 + 1)%N).
  - apply elem_of_cons. right. apply elem_of_cons. left. reflexivity.
  - lia.
Defined.



End WrapFacts.

(* ===================================================================== *)
(** ** Unique ids: guids never collide *)
(* ===================================================================== *)

Module UniqueIdsFacts.
Import UniqueIds.

Fixpoint has_dash (s : string) : bool :=
  match s with
  | EmptyString => false
  | String c s' => if Ascii.eqb c "-"%char then true else has_dash s'
  end.

Lemma has_dash_pretty_N_go (x : N) (s : string) : has_dash (pretty_N_go x s) = has_dash s.
Proof.
  revert s. induction (N.lt_wf_0 x) as [x _ IH]; intros s.
  assert (x = 0 \/ 0 < x)%N as [->|Hx] by lia; [rewrite pretty_N_go_0; reflexivity|].
  rewrite pretty_N_go_step by exact Hx. rewrite IH by (apply N.div_lt; lia).
  cbn. unfold pretty_N_char. by repeat case_match.
Qed.

Lemma has_dash_pretty (n : N) : has_dash (pretty n) = false.
Proof.
  unfold pretty, pretty_N. case_decide; [reflexivity|].
  rewrite has_dash_pretty_N_go. reflexivity.
Qed.

Lemma has_dash_app_dash (b q : string) : has_dash (b +:+ "-" +:+ q) = true.
Proof. induction b as [|c b IH]; [reflexivity|]. simpl. destruct (Ascii.eqb c "-"); [reflexivity|exact IH]. Qed.

Lemma split_last_dash (a b p q : string) :
  has_dash p = false -> has_dash q = false ->
  a +:+ "-" +:+ p = b +:+ "-" +:+ q -> a = b /\ p = q.
Proof.
  intros Hp Hq. revert b. induction a as [|c a IH]; intros b Heq.
  - destruct b as [|c' b]; simpl in Heq.
    + injection Heq as Heq. split; [reflexivity|exact Heq].
    + injection Heq as <- Heq. assert (Hpe : p = b +:+ "-" +:+ q) by exact Heq.
      rewrite Hpe, has_dash_app_dash in Hp. discriminate.
  - destruct b as [|c' b]; simpl in Heq.
    + injection Heq as -> Heq. assert (Hqe : q = a +:+ "-" +:+ p) by (symmetry; exact Heq).
      rewrite Hqe, has_dash_app_dash in Hq. discriminate.
    + injection Heq as <- Heq. destruct (IH b Heq) as [-> ->]. split; reflexivity.
Qed.

Lemma step_generate_reply (st : UniqueNode) (input : Message Payload) (r : Message Payload) (g : string) :
  r ∈ (step st input).1 -> payload r = GenerateOk g ->
  payload input = Generate /\ g = node st +:+ "-" +:+ pretty (msg_id_ctr st).
Proof.
  unfold step. destruct (payload input); cbn; intros Hr Hg;
    try (apply not_elem_of_nil in Hr; contradiction).
  apply list_elem_of_singleton in Hr as ->. cbn in Hg. injection Hg as <-.
  split; reflexivity.
Qed.

(** [UniqueNode::step] of src/bin/unique-ids.rs: the guid
    ["{node}-{msg_id}"] of a [generate_ok] reply determines the node and
    the counter it was issued with, even when node ids contain dashes (a
    decimal counter contains none); a step that succeeds was a
    [generate], keeps the node id and advances the counter by one, so
    guids of one node are never repeated and guids of different nodes
    never coincide; at the [usize] limit the reply is still written and
    the increment then panics. *)
Theorem generate_guids_unique :
  (forall st1 st2 i1 i2 r1 r2 g,
     r1 ∈ (step st1 i1).1 -> payload r1 = GenerateOk g ->
     r2 ∈ (step st2 i2).1 -> payload r2 = GenerateOk g ->
     node st1 = node st2 /\ msg_id_ctr st1 = msg_id_ctr st2) /\
  (forall st i out st', step st i = (out, Ok st') ->
     payload i = Generate /\ node st' = node st /\ msg_id_ctr st' = (msg_id_ctr st + 1)%N) /\
  (forall st i, payload i = Generate -> msg_id_ctr st = USIZE_MAX ->
     length (step st i).1 = 1 /\ (step st i).2 = Panic "attempt to add with overflow").
Proof.
  split; [|split].
  - intros st1 st2 i1 i2 r1 r2 g H1 Hg1 H2 Hg2.
    destruct (step_generate_reply st1 i1 r1 g H1 Hg1) as [_ E1].
    destruct (step_generate_reply st2 i2 r2 g H2 Hg2) as [_ E2].
    rewrite E1 in E2.
    destruct (split_last_dash _ _ _ _ (has_dash_pretty _) (has_dash_pretty _) E2) as [Hn Hc].
    split; [exact Hn|]. apply (inj pretty) in Hc. exact Hc.
  - intros st i out st'. unfold step.
    destruct (payload i); try discriminate.
    destruct (msg_id_ctr st =? USIZE_MAX)%N; [discriminate|].
    intros Heq. injection Heq as _ <-. cbn. split; [reflexivity|split; reflexivity].
  - intros st i Hi Hc. unfold step. rewrite Hi, Hc. cbn.
    rewrite N.eqb_refl. split; reflexivity.
Qed.

End UniqueIdsFacts.
